(** * Vehicle control link of the ROV console (vehicle/vehicle_control.py)

    A shallow embedding of [VehicleControl]: the heartbeat/arming poll
    [update], the command methods, the RC-override encoder and the relay
    channel, followed by the properties of the control link.

    Modelling conventions.
    - A Python [float] (axis values, clock readings) is an IEEE 754
      binary64 number, Rocq's primitive [float]; its operations round to
      nearest, ties to even.  An [int] is a [Z].  Python's [round] on a
      float is round-half-to-even of its exact value.
    - A [dict] is its item list in insertion order; its keys are distinct.
    - A method is a computation over the object's fields that returns
      normally or raises, and appends to a trace of observable events:
      Qt signal emissions, MAVLink messages written to the telemetry link,
      calls on the relay stream socket and log records. *)

From Stdlib Require Import ZArith Bool List Lia.
From Stdlib Require Import PrimFloat SpecFloat FloatOps FloatAxioms.
From stdpp Require Import base list.
Import ListNotations.

Local Open Scope Z_scope.

(** ** Exceptions *)

Inductive exn :=
| ChannelIdDoesNotExist (channel_id : Z)      (* ValueError *)
| PwmOutOfRange (pwm : Z)                     (* ValueError *)
| InputOutOfRange (val : float)               (* ValueError *)
| NanToInteger                                (* ValueError, from round() *)
| BytesOutOfRange                             (* ValueError, from bytes() *)
| OverflowError                               (* from round() *)
| IndexError
| TypeError
| OSError.

Definition is_ValueError (e : exn) : bool :=
  match e with
  | ChannelIdDoesNotExist _ | PwmOutOfRange _ | InputOutOfRange _
  | NanToInteger | BytesOutOfRange => true
  | _ => false
  end.

(** ** Python numerics *)

Module Py.

(** The integer nearest to [a / d], ties to the even one ([0 < d]). *)
Definition rne (a d : Z) : Z :=
  let q := a / d in
  let r2 := 2 * (a mod d) in
  if r2 <? d then q
  else if d <? r2 then q + 1
  else if Z.even q then q else q + 1.

(** [round(x)] with one argument on a float: the integer nearest to the
    value of [x], ties to the even one; NaN and the infinities raise. *)
Definition round (x : float) : exn + Z :=
  match Prim2SF x with
  | S754_zero _ => inr 0
  | S754_finite s m e =>
      inr (if 0 <=? e then cond_Zopp s (Z.pos m) * 2 ^ e
           else rne (cond_Zopp s (Z.pos m)) (2 ^ (- e)))
  | S754_infinity _ => inl OverflowError
  | S754_nan => inl NanToInteger
  end.

(** [l[i] = v] on a list: negative indices count from the end, an index
    out of range raises IndexError ([None]). *)
Definition setitem (l : list Z) (i : Z) (v : Z) : option (list Z) :=
  let n := Z.of_nat (length l) in
  if (0 <=? i) && (i <? n) then Some (<[Z.to_nat i := v]> l)
  else if (- n <=? i) && (i <? 0) then Some (<[Z.to_nat (n + i) := v]> l)
  else None.

(** [d[k] = v] on a dict: an existing key keeps its position. *)
Fixpoint dict_set (k v : Z) (d : list (Z * Z)) : list (Z * Z) :=
  match d with
  | [] => [(k, v)]
  | (k', v') :: d' =>
      if k' =? k then (k, v) :: d' else (k', v') :: dict_set k v d'
  end.

End Py.

(** ** Constants and enumerations *)

Definition TIMEOUT : float := 2.

Inductive InputChannel :=
| PITCH | ROLL | THROTTLE | YAW | FORWARD | LATERAL
| PAN_CAMERA | TILT_CAMERA | LIGHTS_1 | LIGHTS_2 | VIDEO_SWITCH.

Definition InputChannel_value (c : InputChannel) : Z :=
  match c with
  | PITCH => 1 | ROLL => 2 | THROTTLE => 3 | YAW => 4
  | FORWARD => 5 | LATERAL => 6 | PAN_CAMERA => 7 | TILT_CAMERA => 8
  | LIGHTS_1 => 9 | LIGHTS_2 => 10 | VIDEO_SWITCH => 11
  end.

Inductive Relay :=
| PVC_FRONT | CLAW_FRONT | PVC_BACK | CLAW_BACK | MAGNET | LIGHTS.

(** The hardware pin of a relay. *)
Definition Relay_value (r : Relay) : Z :=
  match r with
  | PVC_FRONT => 1 | CLAW_FRONT => 4 | PVC_BACK => 2
  | CLAW_BACK => 3 | MAGNET => 0 | LIGHTS => 5
  end.

(** [for relay in Relay]: the members in definition order. *)
Definition Relay_members : list Relay :=
  [PVC_FRONT; CLAW_FRONT; PVC_BACK; CLAW_BACK; MAGNET; LIGHTS].

(** ** Observable events *)

Inductive signal :=
| connected_signal | disconnected_signal | armed_signal | disarmed_signal.

(** Messages written to the telemetry link. *)
Inductive mavmsg :=
| ArmRequest                                  (* link.arducopter_arm() *)
| DisarmRequest                               (* link.arducopter_disarm() *)
| RcChannelsOverride (chans : list Z).        (* mav.rc_channels_override_send *)

Inductive logrec :=
| InfoArmSent                                 (* "Arm command sent" *)
| InfoDisarmSent                              (* "Disarm command sent" *)
| DebugThrustersStopped                       (* "Thrusters stopped" *)
| DebugSettingRelay (pin : Z) (state : bool)
| ErrorSocketSend (e : exn).

Inductive event :=
| Emit (sg : signal)
| LinkSend (m : mavmsg)
| SockConnect                                 (* socket.connect_ex((HOST, PORT)) *)
| SockSendall (payload : list Z)              (* socket.sendall(bytes(payload)) *)
| Log (r : logrec).

(** ** Object state *)

(** The relay stream socket as the operating system holds it: whether the
    peer accepts connections, and whether the connection stands. *)
Record relay_socket := { peer_listening : bool; established : bool }.

Record vehicle := {
  last_msg_time : option float;
  connected : bool;
  armed : bool;
  socket : relay_socket
}.

(** The fields [update] reads from a received HEARTBEAT. *)
Record heartbeat := { base_mode : Z }.

(** ** Methods as computations *)

Inductive outcome (A : Type) :=
| Return (a : A)
| Raise (e : exn).
Arguments Return {A} a.
Arguments Raise {A} e.

Definition M (A : Type) : Type := vehicle -> outcome A * vehicle * list event.

Definition ret {A} (a : A) : M A := fun s => (Return a, s, []).

Definition raise {A} (e : exn) : M A := fun s => (Raise e, s, []).

Definition bind {A B} (m : M A) (k : A -> M B) : M B := fun s =>
  match m s with
  | (Return a, s1, t1) =>
      match k a s1 with (r, s2, t2) => (r, s2, t1 ++ t2) end
  | (Raise e, s1, t1) => (Raise e, s1, t1)
  end.

(** [try: m  except Exception as e: h e] *)
Definition try_except {A} (m : M A) (h : exn -> M A) : M A := fun s =>
  match m s with
  | (Return a, s1, t1) => (Return a, s1, t1)
  | (Raise e, s1, t1) =>
      match h e s1 with (r, s2, t2) => (r, s2, t1 ++ t2) end
  end.

Definition tell (ev : event) : M unit := fun s => (Return tt, s, [ev]).

Definition modify (f : vehicle -> vehicle) : M unit :=
  fun s => (Return tt, f s, []).

Declare Scope vc_scope.
Delimit Scope vc_scope with vc.
Notation "m1 >> m2" := (bind m1 (fun _ => m2))
  (at level 62, right associativity) : vc_scope.
Notation "'when' b 'then' m" := (if b then m else ret tt)
  (at level 61, b at level 9, m at level 61) : vc_scope.

Definition outcome_of {A} (r : outcome A * vehicle * list event) : outcome A :=
  fst (fst r).
Definition state_of {A} (r : outcome A * vehicle * list event) : vehicle :=
  snd (fst r).
Definition trace_of {A} (r : outcome A * vehicle * list event) : list event :=
  snd r.

Definition gets {A} (f : vehicle -> A) : M A := fun s => (Return (f s), s, []).

Notation "'let*' x ':=' m 'in' k" := (bind m (fun x => k))
  (at level 10, x name, m at level 100, k at level 200) : vc_scope.

(** [for x in l: body x] *)
Fixpoint for_each {A} (l : list A) (body : A -> M unit) : M unit :=
  match l with
  | [] => ret tt
  | x :: l' => bind (body x) (fun _ => for_each l' body)
  end.

Local Open Scope vc_scope.

(** ** The class [VehicleControl] *)

Module VehicleControl.

Definition set_last_msg_time (t : option float) (s : vehicle) : vehicle :=
  {| last_msg_time := t; connected := connected s;
     armed := armed s; socket := socket s |}.

Definition set_connected (b : bool) (s : vehicle) : vehicle :=
  {| last_msg_time := last_msg_time s; connected := b;
     armed := armed s; socket := socket s |}.

Definition set_armed (b : bool) (s : vehicle) : vehicle :=
  {| last_msg_time := last_msg_time s; connected := connected s;
     armed := b; socket := socket s |}.

Definition set_socket (k : relay_socket) (s : vehicle) : vehicle :=
  {| last_msg_time := last_msg_time s; connected := connected s;
     armed := armed s; socket := k |}.

(** [__init__]: no message seen, disconnected, disarmed, the relay socket
    created and not connected. *)
Definition init (peer : bool) : vehicle :=
  {| last_msg_time := None; connected := false; armed := false;
     socket := {| peer_listening := peer; established := false |} |}.

Definition emit (sg : signal) : M unit := tell (Emit sg).

(** [socket.connect_ex]: the result is discarded by the caller; the
    connection comes to stand when the peer listens. *)
Definition connect_ex : M unit :=
  tell SockConnect >>
  modify (fun s => set_socket
    {| peer_listening := peer_listening (socket s);
       established := established (socket s) || peer_listening (socket s) |} s).

(** [bytes(l)]: every element must be in [range(256)]. *)
Definition bytes (l : list Z) : M (list Z) :=
  if forallb (fun b => (0 <=? b) && (b <? 256)) l then ret l
  else raise BytesOutOfRange.

(** [socket.sendall]: raises when the connection does not stand. *)
Definition sendall (payload : list Z) : M unit :=
  tell (SockSendall payload) >>
  let* up := gets (fun s => established (socket s)) in
  if up then ret tt else raise OSError.

(** [update]: [msg] is what [wait_heartbeat(blocking=False)] returned and
    [now] what [time.time()] reads in this call. *)
Definition update (now : float) (msg : option heartbeat) : M unit :=
  match msg with
  | Some m =>
      let* c := gets connected in
      (when (negb c) then
         (emit connected_signal >> modify (set_connected true))) >>
      modify (set_last_msg_time (Some now)) >>
      let armed' := (Z.land (base_mode m) 128 =? 128) in
      let* a := gets armed in
      (when (negb (Bool.eqb armed' a)) then
         (if armed' then emit armed_signal else emit disarmed_signal)) >>
      modify (set_armed armed')
  | None =>
      let* c := gets connected in
      if c then
        let* t := gets last_msg_time in
        match t with
        | None => raise TypeError
        | Some t0 =>
            when (TIMEOUT <? now - t0)%float then
              (emit disconnected_signal >> modify (set_connected false))
        end
      else ret tt
  end.

Definition is_connected (s : vehicle) : bool := connected s.

Definition is_armed (s : vehicle) : bool := armed s.

(** The loop of [set_rc_input_pwms] over [pwms.items()]. *)
Fixpoint override_loop (items : list (Z * Z)) (rc_channel_values : list Z)
  : M (list Z) :=
  match items with
  | [] => ret rc_channel_values
  | (channel_id, pwm) :: rest =>
      if (channel_id <? 1) || (channel_id >? 18)
      then raise (ChannelIdDoesNotExist channel_id)
      else if negb ((1100 <=? pwm) && (pwm <=? 1900))
      then raise (PwmOutOfRange pwm)
      else match Py.setitem rc_channel_values (channel_id - 1) pwm with
           | None => raise IndexError
           | Some l => override_loop rest l
           end
  end.

Definition set_rc_input_pwms (pwms : list (Z * Z)) : M unit :=
  let* c := gets is_connected in
  let* a := gets is_armed in
  if negb c || negb a then ret tt
  else
    let* rc_channel_values := override_loop pwms (replicate 18 65535) in
    tell (LinkSend (RcChannelsOverride rc_channel_values)).

(** One pass of the loop of [set_rc_inputs]: the range check on [val] and
    the PWM value computed from it. *)
Definition input_pwm (val : float) : M Z :=
  if negb ((-1 <=? val) && (val <=? 1))%float
  then raise (InputOutOfRange val)
  else
    match Py.round (val * 400 + 1500)%float with
    | inl e => raise e
    | inr pwm =>
        let pwm := Z.min (Z.max pwm 1100) 1900 in
        ret pwm
    end.

Fixpoint inputs_loop (items : list (InputChannel * float)) (pwms : list (Z * Z))
  : M (list (Z * Z)) :=
  match items with
  | [] => ret pwms
  | (channel, val) :: rest =>
      let* pwm := input_pwm val in
      inputs_loop rest (Py.dict_set (InputChannel_value channel) pwm pwms)
  end.

Definition set_rc_inputs (values : list (InputChannel * float)) : M unit :=
  let* pwms := inputs_loop values [] in
  set_rc_input_pwms pwms.

(** The source passes the int [0]; [0 * 400 + 1500] is 1500 on ints as
    on floats. *)
Definition stop_thrusters : M unit :=
  set_rc_inputs [(FORWARD, 0%float); (LATERAL, 0%float);
                 (THROTTLE, 0%float); (YAW, 0%float);
                 (PITCH, 0%float); (ROLL, 0%float)] >>
  tell (Log DebugThrustersStopped).

Definition set_relay (relay : Relay) (state : bool) : M unit :=
  let* c := gets is_connected in
  let* a := gets is_armed in
  if negb c || (negb a && state) then ret tt
  else
    tell (Log (DebugSettingRelay (Relay_value relay) state)) >>
    try_except
      (let* b := bytes [Relay_value relay; Z.b2z state] in sendall b)
      (fun e => tell (Log (ErrorSocketSend e))).

Definition turn_off_relays : M unit :=
  for_each Relay_members (fun relay => set_relay relay false).

Definition arm : M unit :=
  tell (LinkSend ArmRequest) >>
  connect_ex >>
  tell (Log InfoArmSent).

Definition disarm : M unit :=
  turn_off_relays >>
  tell (LinkSend DisarmRequest) >>
  tell (Log InfoDisarmSent).

End VehicleControl.

(** ** Runs of the object *)

(** A call made by the owning application. *)
Inductive call :=
| Update (now : float) (msg : option heartbeat)
| Arm
| Disarm
| SetRcInputPwms (pwms : list (Z * Z))
| SetRcInputs (values : list (InputChannel * float))
| StopThrusters
| SetRelay (relay : Relay) (state : bool)
| TurnOffRelays.

Definition exec (c : call) : M unit :=
  match c with
  | Update now msg => VehicleControl.update now msg
  | Arm => VehicleControl.arm
  | Disarm => VehicleControl.disarm
  | SetRcInputPwms pwms => VehicleControl.set_rc_input_pwms pwms
  | SetRcInputs values => VehicleControl.set_rc_inputs values
  | StopThrusters => VehicleControl.stop_thrusters
  | SetRelay relay state => VehicleControl.set_relay relay state
  | TurnOffRelays => VehicleControl.turn_off_relays
  end.

Definition is_update (c : call) : bool :=
  match c with Update _ _ => true | _ => false end.

(** The calls of [cs] made one after the other, whatever each returns or
    raises: the state left and the events produced. *)
Fixpoint run (cs : list call) (s : vehicle) : vehicle * list event :=
  match cs with
  | [] => (s, [])
  | c :: cs' =>
      let r := exec c s in
      let r' := run cs' (state_of r) in
      (fst r', trace_of r ++ snd r')
  end.

Definition reachable (s : vehicle) : Prop :=
  exists peer cs, s = fst (run cs (VehicleControl.init peer)).

(** Reachable by [update] calls alone. *)
Definition reachable_by_updates (s : vehicle) : Prop :=
  exists peer cs,
    forallb is_update cs = true /\ s = fst (run cs (VehicleControl.init peer)).

(** * The video thread of the console (gui/app.py)

    The methods of [VideoThread] that step through the opened videos.  A
    [cv2.VideoCapture] over a file is its position (CAP_PROP_POS_FRAMES,
    the index of the frame that [read] returns next) and the number of
    frames of the file; an image is named by its index in the file.  The
    loop of [run] lives in a thread of its own; [run_step] is one pass of
    its body. *)

Module VideoThread.

Record capture := { pos : Z; frames : Z }.

(** [capture.set(cv2.CAP_PROP_POS_FRAMES, k)] *)
Definition set_pos (k : Z) (c : capture) : capture :=
  {| pos := k; frames := frames c |}.

(** [capture.read()]: the frame at the position, if there is one, and
    the position moves on. *)
Definition read (c : capture) : option Z * capture :=
  if (0 <=? pos c) && (pos c <? frames c)
  then (Some (pos c), set_pos (pos c + 1) c)
  else (None, c).

(** [Frame(cv_img, cam_index)], as emitted on [update_frames_signal]. *)
Record Frame := { cv_img : Z; cam_index : nat }.

Record thread := {
  _thread_running_flag : bool;
  _video_playing_flag : bool;
  _rewind : bool;
  _captures : list capture
}.

(** The body of the loop of [_emit_frames] for one capture. *)
Definition emit_capture (rewind : bool) (index : nat) (c : capture)
  : capture * list Frame :=
  let c1 :=
    if rewind then
      let cur_frame := pos c in
      let prev_frame := if 2 <=? cur_frame then cur_frame - 2 else 0 in
      set_pos prev_frame c
    else c in
  match read c1 with
  | (Some img, c2) => (c2, [{| cv_img := img; cam_index := index |}])
  | (None, c2) => (c2, [])
  end.

(** [for index, capture in enumerate(self._captures)], from [index] on. *)
Fixpoint emit_from (rewind : bool) (index : nat) (cs : list capture)
  : list capture * list Frame :=
  match cs with
  | [] => ([], [])
  | c :: cs' =>
      let r := emit_capture rewind index c in
      let r' := emit_from rewind (S index) cs' in
      (fst r :: fst r', snd r ++ snd r')
  end.

Definition set_captures (cs : list capture) (t : thread) : thread :=
  {| _thread_running_flag := _thread_running_flag t;
     _video_playing_flag := _video_playing_flag t;
     _rewind := _rewind t; _captures := cs |}.

Definition set_rewind (b : bool) (t : thread) : thread :=
  {| _thread_running_flag := _thread_running_flag t;
     _video_playing_flag := _video_playing_flag t;
     _rewind := b; _captures := _captures t |}.

Definition _emit_frames (t : thread) : thread * list Frame :=
  let r := emit_from (_rewind t) 0 (_captures t) in
  (set_captures (fst r) t, snd r).


Definition next_frame (t : thread) : thread * list Frame :=
  if negb (_video_playing_flag t) then
    let prev_rewind_state := _rewind t in
    let r := _emit_frames (set_rewind false t) in
    (set_rewind prev_rewind_state (fst r), snd r)
  else (t, []).

Definition prev_frame (t : thread) : thread * list Frame :=
  if negb (_video_playing_flag t) then
    let prev_rewind_state := _rewind t in
    let r := _emit_frames (set_rewind true t) in
    (set_rewind prev_rewind_state (fst r), snd r)
  else (t, []).

Definition toggle_rewind (t : thread) : thread :=
  set_rewind (negb (_rewind t)) t.

Definition toggle_play_pause (t : thread) : thread :=
  {| _thread_running_flag := _thread_running_flag t;
     _video_playing_flag := negb (_video_playing_flag t);
     _rewind := _rewind t; _captures := _captures t |}.

End VideoThread.

(** * The manual stitching window (vision/transect/stitch_pyqt.py)

    [MainWindow] as far as its event handlers go.  [stitcher.images] is a
    sequence of references to image objects; an object is named by its
    place in the store of the [coords] lists.  Drawing is an event of the
    trace. *)

Module MainWindow.

Inductive key := Key_Right | Key_Left | Key_R | Key_Return | Key_other.

Inductive shown :=
| DisplayImage (num : Z)          (* self.display_image(num) *)
| PrintReset                      (* print("RESETTING SQUARE ...") *)
| PrintCoord (n : nat) (x y : Z)  (* print("Square ... coord n: (x, y)") *)
| StitchManually.                 (* self.stitch_manually() *)

Record window := {
  image_count : Z;                     (* len(self.image_list) *)
  images : list nat;                   (* stitcher.images: object references *)
  image_index : Z;
  transect_img : nat;                  (* the object self.transect_img *)
  coords : list (list (Z * Z))         (* the coords attribute of each object *)
}.

Inductive result := Done | IndexError.

(** [l[i]] on a sequence: a negative index counts from the end, an
    index out of range raises IndexError ([None]). *)
Definition getitem {A} (l : list A) (i : Z) : option A :=
  let n := Z.of_nat (length l) in
  if (0 <=? i) && (i <? n) then l !! Z.to_nat i
  else if (- n <=? i) && (i <? 0) then l !! Z.to_nat (n + i)
  else None.

Definition set_index (i : Z) (w : window) : window :=
  {| image_count := image_count w; images := images w; image_index := i;
     transect_img := transect_img w; coords := coords w |}.

Definition set_transect_img (o : nat) (w : window) : window :=
  {| image_count := image_count w; images := images w;
     image_index := image_index w; transect_img := o; coords := coords w |}.

Definition set_coords (o : nat) (l : list (Z * Z)) (w : window) : window :=
  {| image_count := image_count w; images := images w;
     image_index := image_index w; transect_img := transect_img w;
     coords := <[o := l]> (coords w) |}.

(** The two statements after the index has moved:
    [self.transect_img = stitcher.images[self.image_index]] and
    [self.display_image(self.image_index)], which reads
    [self.image_list[num]]. *)
Definition show_current (w : window) : result * window * list shown :=
  match getitem (images w) (image_index w) with
  | None => (IndexError, w, [])
  | Some o =>
      let w' := set_transect_img o w in
      if (- image_count w <=? image_index w) && (image_index w <? image_count w)
      then (Done, w', [DisplayImage (image_index w)])
      else (IndexError, w', [])
  end.

Definition keyPressEvent (k : key) (w : window) : result * window * list shown :=
  match k with
  | Key_Right =>
      if image_index w <? image_count w - 1
      then show_current (set_index (image_index w + 1) w)
      else (Done, w, [])
  | Key_Left =>
      if 0 <? image_index w
      then show_current (set_index (image_index w - 1) w)
      else (Done, w, [])
  | Key_R => (Done, set_coords (transect_img w) [] w, [PrintReset])
  | Key_Return => (Done, w, [StitchManually])
  | Key_other => (Done, w, [])
  end.

Definition mousePressEvent (x y : Z) (w : window) : result * window * list shown :=
  let old := default [] (coords w !! transect_img w) in
  let w' := set_coords (transect_img w) (old ++ [(x, y)]) w in
  (Done, w', [PrintCoord (length (old ++ [(x, y)])) x y]).

Inductive input := Press (k : key) | Click (x y : Z).

Definition handle (i : input) (w : window) : result * window * list shown :=
  match i with
  | Press k => keyPressEvent k w
  | Click x y => mousePressEvent x y w
  end.

Fixpoint handle_all (l : list input) (w : window) : window :=
  match l with
  | [] => w
  | i :: l' => handle_all l' (snd (fst (handle i w)))
  end.

End MainWindow.

(** * Properties *)

Import VehicleControl.

(** ** The guard of the actuation commands *)

(** What [set_relay] does in every state: nothing unless connected and,
    for switching on, armed; otherwise it logs, hands the two bytes to the
    socket and logs the error of a failed send. *)
Lemma set_relay_spec (relay : Relay) (state : bool) (s : vehicle) :
  set_relay relay state s =
  if connected s && (armed s || negb state)
  then (Return tt, s,
        Log (DebugSettingRelay (Relay_value relay) state)
        :: SockSendall [Relay_value relay; Z.b2z state]
        :: (if established (socket s) then []
            else [Log (ErrorSocketSend OSError)]))
  else (Return tt, s, []).
Proof.
  unfold set_relay, bind, gets, is_connected, is_armed.
  destruct (connected s), (armed s), state; simpl; try reflexivity;
    destruct relay; simpl;
    unfold sendall, bind, gets, tell, try_except, ret, raise; simpl;
    destruct (established (socket s)); reflexivity.
Qed.

Lemma gate_closed (s : vehicle) :
  connected s = false \/ armed s = false ->
  negb (is_connected s) || negb (is_armed s) = true.
Proof.
  unfold is_connected, is_armed. intros [-> | ->]; simpl; auto using orb_true_r.
Qed.

(** C1: while [connected] or [armed] is false, [set_rc_input_pwms] (on any
    mapping) and [set_relay] with [state = True] return normally, leave the
    object as it was and produce no event at all: no packet on the
    telemetry link, no call on the relay socket. *)
Theorem gated_commands_are_silent (s : vehicle) :
  connected s = false \/ armed s = false ->
  (forall pwms, set_rc_input_pwms pwms s = (Return tt, s, [])) /\
  (forall relay, set_relay relay true s = (Return tt, s, [])).
Proof.
  intros Hgate. split.
  - intros pwms. unfold set_rc_input_pwms, bind, gets.
    cbn beta iota. rewrite (gate_closed s Hgate). reflexivity.
  - intros relay. rewrite set_relay_spec.
    destruct Hgate as [-> | ->]; simpl; [reflexivity |].
    rewrite andb_false_r. reflexivity.
Qed.

Lemma gated_commands_are_silent_witness :
  let s := fst (run [Update 0 (Some {| base_mode := 81 |})] (init true)) in
  (connected s = false \/ armed s = false) /\
  (forall pwms, set_rc_input_pwms pwms s = (Return tt, s, [])) /\
  (forall relay, set_relay relay true s = (Return tt, s, [])).
Proof.
  intros s. split.
  - right. reflexivity.
  - apply (gated_commands_are_silent s). right. reflexivity.
Defined.

(** ** Relay commands *)

(** The state left by a heartbeat with the armed bit, [arm()], and then
    three seconds of silence: the relay connection stands, the telemetry
    link is lost. *)
Definition link_lost : vehicle :=
  fst (run [Update 0 (Some {| base_mode := 209 |}); Arm; Update 3 None]
           (init true)).

(** C3, as stated, fails: once the telemetry link is lost a relay-off
    call sends nothing, although the relay socket is connected. *)
Lemma relay_off_dropped_when_disconnected :
  connected link_lost = false /\
  established (socket link_lost) = true /\
  reachable link_lost /\
  set_relay MAGNET false link_lost = (Return tt, link_lost, []).
Proof.
  repeat split.
  exists true, [Update 0 (Some {| base_mode := 209 |}); Arm; Update 3 None].
  reflexivity.
Qed.

(** C3, amended: [set_relay(id, False)] hands its two-byte message
    [[pin, 0]] to the relay socket exactly when [connected] holds, whatever
    [armed] is; only switching on also asks for [armed].  While
    disconnected the call does nothing.  The call returns normally in
    every case. *)
Theorem relay_off_needs_connection_only (relay : Relay) (s : vehicle) :
  (set_relay relay false s =
     if connected s
     then (Return tt, s,
           Log (DebugSettingRelay (Relay_value relay) false)
           :: SockSendall [Relay_value relay; 0]
           :: (if established (socket s) then []
               else [Log (ErrorSocketSend OSError)]))
     else (Return tt, s, [])) /\
  (In (SockSendall [Relay_value relay; 1]) (trace_of (set_relay relay true s))
     <-> connected s = true /\ armed s = true).
Proof.
  rewrite !set_relay_spec. split.
  - rewrite orb_true_r, andb_true_r. reflexivity.
  - rewrite orb_false_r.
    destruct (connected s), (armed s); simpl;
      intuition (try discriminate; try contradiction).
Qed.

(** ** RC override *)

Definition valid_entry (e : Z * Z) : Prop :=
  1 <= fst e <= 18 /\ 1100 <= snd e <= 1900.

Lemma setitem_in_range (l : list Z) (i v : Z) :
  0 <= i < Z.of_nat (length l) ->
  Py.setitem l i v = Some (<[Z.to_nat i := v]> l).
Proof.
  intros Hi. unfold Py.setitem.
  replace (0 <=? i) with true by (symmetry; apply Z.leb_le; lia).
  replace (i <? Z.of_nat (length l)) with true by (symmetry; apply Z.ltb_lt; lia).
  reflexivity.
Qed.

(** On valid entries the loop never raises and keeps the 18 slots; each
    slot holds the value of its key, the others keep what they held. *)
Lemma override_loop_valid (items : list (Z * Z)) :
  forall (vals : list Z) (s : vehicle),
    length vals = 18%nat ->
    Forall valid_entry items ->
    NoDup (map fst items) ->
    exists vals',
      override_loop items vals s = (Return vals', s, []) /\
      length vals' = 18%nat /\
      (forall c p, In (c, p) items -> vals' !! Z.to_nat (c - 1) = Some p) /\
      (forall c, 1 <= c -> ~ In c (map fst items) ->
                 vals' !! Z.to_nat (c - 1) = vals !! Z.to_nat (c - 1)).
Proof.
  induction items as [| [c p] rest IH]; intros vals s Hlen Hval Hnd.
  - exists vals. repeat split; auto. intros c p [].
  - apply Forall_cons in Hval as [[Hc Hp] Hval]. simpl in Hc, Hp.
    apply NoDup_cons in Hnd as [Hfresh Hnd].
    cbn [override_loop].
    replace (c <? 1) with false by (symmetry; apply Z.ltb_ge; lia).
    replace (c >? 18) with false by (symmetry; rewrite Z.gtb_ltb; apply Z.ltb_ge; lia).
    replace (1100 <=? p) with true by (symmetry; apply Z.leb_le; lia).
    replace (p <=? 1900) with true by (symmetry; apply Z.leb_le; lia).
    cbn [orb andb negb].
    rewrite setitem_in_range by lia.
    destruct (IH (<[Z.to_nat (c - 1) := p]> vals) s) as (vals' & Hrun & Hlen' & Hset & Hkeep);
      [ now rewrite length_insert | assumption | assumption | ].
    exists vals'. repeat split; auto.
    + intros c' p' [Heq | Hin].
      * inversion Heq; subst c' p'.
        rewrite Hkeep; [ | lia | now rewrite <- list_elem_of_In ].
        apply list_lookup_insert_eq. lia.
      * now apply Hset.
    + intros c' Hc' Hnotin. simpl in Hnotin.
      rewrite Hkeep; [ | lia | tauto ].
      apply list_lookup_insert_ne. intros Heq.
      apply Hnotin. left. lia.
Qed.

(** An entry out of range makes the loop raise a [ValueError], whatever
    came before it. *)
Lemma override_loop_invalid (items : list (Z * Z)) :
  forall (vals : list Z) (s : vehicle),
    length vals = 18%nat ->
    Exists (fun e => ~ valid_entry e) items ->
    exists e,
      is_ValueError e = true /\
      override_loop items vals s = (Raise e, s, []).
Proof.
  induction items as [| [c p] rest IH]; intros vals s Hlen Hbad.
  - inversion Hbad.
  - cbn [override_loop].
    destruct ((c <? 1) || (c >? 18)) eqn:Hc.
    { eexists; split; [ | reflexivity ]. reflexivity. }
    destruct (negb ((1100 <=? p) && (p <=? 1900))) eqn:Hp.
    { eexists; split; [ | reflexivity ]. reflexivity. }
    apply orb_false_elim in Hc as [Hc1 Hc2].
    apply Z.ltb_ge in Hc1. rewrite Z.gtb_ltb in Hc2. apply Z.ltb_ge in Hc2.
    apply negb_false_iff, andb_prop in Hp as [Hp1 Hp2].
    apply Z.leb_le in Hp1, Hp2.
    rewrite setitem_in_range by lia.
    apply Exists_cons in Hbad as [Hbad | Hbad].
    + exfalso. apply Hbad. unfold valid_entry. simpl. lia.
    + apply IH; [ now rewrite length_insert | assumption ].
Qed.

(** A state that passes the gate of the actuation commands. *)
Definition connected_and_armed : vehicle :=
  fst (run [Update 0 (Some {| base_mode := 209 |}); Arm] (init true)).

(** C4, as stated, fails: while disconnected, a mapping with channel id
    19, or with PWM 5000, is accepted without any error. *)
Lemma set_rc_input_pwms_gate_precedes_validation :
  set_rc_input_pwms [(19, 1500)] (init true) = (Return tt, init true, []) /\
  set_rc_input_pwms [(3, 5000)] (init true) = (Return tt, init true, []).
Proof. split; reflexivity. Qed.

(** C4, amended: when connected and armed, a mapping with an entry whose
    channel id is outside [1,18] or whose PWM is outside [1100,1900] makes
    [set_rc_input_pwms] raise a [ValueError] before anything is
    transmitted; when not connected or not armed, the gate comes first and
    the call returns normally without looking at the mapping. *)
Theorem set_rc_input_pwms_validation (pwms : list (Z * Z)) (s : vehicle) :
  (exists c p, In (c, p) pwms /\ (c < 1 \/ 18 < c \/ p < 1100 \/ 1900 < p)) ->
  if connected s && armed s
  then exists e, is_ValueError e = true /\
                 set_rc_input_pwms pwms s = (Raise e, s, [])
  else set_rc_input_pwms pwms s = (Return tt, s, []).
Proof.
  intros (c & p & Hin & Hbad).
  unfold set_rc_input_pwms, bind, gets, is_connected, is_armed. cbn beta iota.
  destruct (connected s), (armed s); cbn [andb orb negb]; try reflexivity.
  destruct (override_loop_invalid pwms (replicate 18 65535) s) as (e & He & Hrun).
  - apply length_replicate.
  - apply Exists_exists. exists (c, p). split.
    + now apply list_elem_of_In.
    + unfold valid_entry. simpl. lia.
  - exists e. split; [assumption |]. rewrite Hrun. reflexivity.
Qed.

Lemma set_rc_input_pwms_validation_witness :
  (exists c p, In (c, p) [(3, 1500); (19, 1500)] /\
               (c < 1 \/ 18 < c \/ p < 1100 \/ 1900 < p)) /\
  (exists e, is_ValueError e = true /\
             set_rc_input_pwms [(3, 1500); (19, 1500)] connected_and_armed
             = (Raise e, connected_and_armed, [])).
Proof.
  assert (H : exists c p, In (c, p) [(3, 1500); (19, 1500)] /\
                          (c < 1 \/ 18 < c \/ p < 1100 \/ 1900 < p)).
  { exists 19, 1500. split; [ right; left; reflexivity | lia ]. }
  split; [ exact H | ].
  exact (set_rc_input_pwms_validation [(3, 1500); (19, 1500)]
           connected_and_armed H).
Defined.

(** C7: a packet that [set_rc_input_pwms] transmits has exactly 18 slots;
    slot [channel_id] (counted from 1) holds the PWM given for
    [channel_id] when it is a key of the mapping, and the sentinel 65535
    when it is not.  The keys of a dict are distinct. *)
Theorem override_packet_shape (pwms : list (Z * Z)) (s : vehicle) :
  NoDup (map fst pwms) ->
  forall chans,
    In (LinkSend (RcChannelsOverride chans))
       (trace_of (set_rc_input_pwms pwms s)) ->
    length chans = 18%nat /\
    (forall channel_id pwm,
        In (channel_id, pwm) pwms ->
        chans !! Z.to_nat (channel_id - 1) = Some pwm) /\
    (forall channel_id,
        1 <= channel_id <= 18 -> ~ In channel_id (map fst pwms) ->
        chans !! Z.to_nat (channel_id - 1) = Some 65535).
Proof.
  intros Hnd chans.
  unfold set_rc_input_pwms, bind, gets, is_connected, is_armed. cbn beta iota.
  destruct (negb (connected s) || negb (armed s)); [ intros [] | ].
  assert (Hdec : forall e, {valid_entry e} + {~ valid_entry e}).
  { intros [c p]. unfold valid_entry. simpl.
    destruct (Z_le_dec 1 c), (Z_le_dec c 18),
             (Z_le_dec 1100 p), (Z_le_dec p 1900); (left; lia) || (right; lia). }
  destruct (Forall_Exists_dec valid_entry (fun e => ~ valid_entry e) Hdec pwms)
    as [Hval | Hbad].
  - destruct (override_loop_valid pwms (replicate 18 65535) s)
      as (vals' & Hrun & Hlen & Hset & Hkeep);
      [ apply length_replicate | assumption | assumption | ].
    rewrite Hrun. unfold tell, trace_of. simpl.
    intros [Heq | []]. inversion Heq; subst chans.
    repeat split; auto.
    intros c Hc Hnotin. rewrite Hkeep by (lia || assumption).
    apply lookup_replicate_2. lia.
  - destruct (override_loop_invalid pwms (replicate 18 65535) s)
      as (e & _ & Hrun); [ apply length_replicate | assumption | ].
    rewrite Hrun. intros [].
Qed.

(** When the gate is open and every entry is in range, exactly one
    packet is transmitted, and nothing else happens. *)
Lemma set_rc_input_pwms_transmits (pwms : list (Z * Z)) (s : vehicle) :
  connected s = true -> armed s = true ->
  Forall valid_entry pwms ->
  NoDup (map fst pwms) ->
  exists chans,
    set_rc_input_pwms pwms s
    = (Return tt, s, [LinkSend (RcChannelsOverride chans)]).
Proof.
  intros Hc Ha Hval Hnd.
  unfold set_rc_input_pwms, bind, gets, is_connected, is_armed. cbn beta iota.
  rewrite Hc, Ha. cbn [negb orb].
  destruct (override_loop_valid pwms (replicate 18 65535) s)
    as (vals' & Hrun & _); [ apply length_replicate | assumption | assumption | ].
  exists vals'. rewrite Hrun. reflexivity.
Qed.

Lemma override_packet_shape_witness :
  let pwms := [(3, 1900); (4, 1300)] in
  let chans := [65535; 65535; 1900; 1300; 65535; 65535; 65535; 65535; 65535;
                65535; 65535; 65535; 65535; 65535; 65535; 65535; 65535; 65535] in
  NoDup (map fst pwms) /\
  In (LinkSend (RcChannelsOverride chans))
     (trace_of (set_rc_input_pwms pwms connected_and_armed)) /\
  (length chans = 18%nat /\
   (forall channel_id pwm,
       In (channel_id, pwm) pwms ->
       chans !! Z.to_nat (channel_id - 1) = Some pwm) /\
   (forall channel_id,
       1 <= channel_id <= 18 -> ~ In channel_id (map fst pwms) ->
       chans !! Z.to_nat (channel_id - 1) = Some 65535)).
Proof.
  intros pwms chans.
  assert (Hnd : NoDup (map fst pwms)).
  { simpl. repeat (apply NoDup_cons_2;
      [ rewrite list_elem_of_In; simpl; intuition discriminate | ]).
    apply NoDup_nil_2. }
  assert (Hin : In (LinkSend (RcChannelsOverride chans))
                   (trace_of (set_rc_input_pwms pwms connected_and_armed))).
  { left. reflexivity. }
  split; [ exact Hnd | ]. split; [ exact Hin | ].
  exact (override_packet_shape pwms connected_and_armed Hnd chans Hin).
Defined.

(** ** Binary64 arithmetic behind the axis mapping *)

(** [-1 <= val <= 1] on floats; NaN is outside. *)
Definition in_unit_range (v : float) : Prop :=
  (-1 <=? v)%float = true /\ (v <=? 1)%float = true.

(** The two roundings of [val * 400 + 1500] and Python's [round] of the
    result, read off Rocq's specification of binary64 ([SpecFloat]) as
    functions on integers: values are scaled by a power of two that makes
    them integers. *)
Module Binary64.

Lemma rne_nearest (a d : Z) :
  0 < d ->
  2 * d * Py.rne a d - d <= 2 * a <= 2 * d * Py.rne a d + d /\
  (2 * a = 2 * d * Py.rne a d + d \/ 2 * a = 2 * d * Py.rne a d - d ->
   Z.even (Py.rne a d) = true).
Proof.
  intros Hd. unfold Py.rne.
  pose proof (Z.div_mod a d ltac:(lia)) as Hdm.
  pose proof (Z.mod_pos_bound a d Hd) as Hm.
  set (q := a / d) in *. set (m := a mod d) in *.
  destruct (Z.ltb_spec (2 * m) d) as [Hlt | Hge].
  - split; [ nia | intros [H | H]; nia ].
  - destruct (Z.ltb_spec d (2 * m)) as [Hgt | Hle].
    + split; [ nia | intros [H | H]; nia ].
    + assert (Htie : 2 * m = d) by lia.
      destruct (Z.even q) eqn:Hev.
      * split; [ nia | intros _; exact Hev ].
      * split; [ nia | intros _ ].
        replace (q + 1) with (Z.succ q) by lia.
        rewrite Z.even_succ, <- Z.negb_even, Hev. reflexivity.
Qed.

Lemma rne_mono (a d a' d' : Z) :
  0 < d -> 0 < d' -> a * d' <= a' * d -> Py.rne a d <= Py.rne a' d'.
Proof.
  intros Hd Hd' Hle.
  destruct (rne_nearest a d Hd) as [[Hx1 _] Hxe].
  destruct (rne_nearest a' d' Hd') as [[_ Hy2] Hye].
  set (rx := Py.rne a d) in *. set (ry := Py.rne a' d') in *.
  destruct (Z_le_gt_dec rx ry) as [H | Hgt]; [ exact H | exfalso ].
  assert (H1 : (2 * d * rx - d) * d' <= 2 * a * d') by nia.
  assert (H2 : 2 * a' * d <= (2 * d' * ry + d') * d) by nia.
  assert (H3 : d * d' * (2 * (rx - ry) - 2) <= 0) by nia.
  assert (Hsucc : rx = ry + 1) by nia.
  assert (Hx : 2 * a = 2 * d * rx - d) by nia.
  assert (Hy : 2 * a' = 2 * d' * ry + d') by nia.
  specialize (Hxe (or_intror Hx)). specialize (Hye (or_introl Hy)).
  rewrite Hsucc in Hxe.
  replace (ry + 1) with (Z.succ ry) in Hxe by lia.
  rewrite Z.even_succ, <- Z.negb_even, Hye in Hxe. discriminate.
Qed.

Lemma rne_exact (k d : Z) : 0 < d -> Py.rne (k * d) d = k.
Proof.
  intros Hd. unfold Py.rne. rewrite Z.div_mul, Z.mod_mul by lia.
  destruct (Z.ltb_spec (2 * 0) d); [ reflexivity | lia ].
Qed.

(** The value depends on the quotient only. *)
Lemma rne_ext (a d a' d' : Z) :
  0 < d -> 0 < d' -> a * d' = a' * d -> Py.rne a d = Py.rne a' d'.
Proof.
  intros Hd Hd' H. apply Z.le_antisymm; apply rne_mono; lia.
Qed.

Lemma rne_scale (a d k : Z) : 0 < d -> 0 < k -> Py.rne (a * k) (d * k) = Py.rne a d.
Proof. intros Hd Hk. apply rne_ext; nia. Qed.

(** Number of binary digits of a positive integer. *)
Definition digits (t : Z) : Z := Z.log2 t + 1.

Lemma digits_bounds (t : Z) : 0 < t -> 2 ^ (digits t - 1) <= t < 2 ^ digits t.
Proof.
  intros Ht. unfold digits. replace (Z.log2 t + 1 - 1) with (Z.log2 t) by lia.
  replace (Z.log2 t + 1) with (Z.succ (Z.log2 t)) by lia.
  apply Z.log2_spec. exact Ht.
Qed.

Lemma digits_pos (t : Z) : 0 < t -> 0 < digits t.
Proof. intros Ht. unfold digits. pose proof (Z.log2_nonneg t). lia. Qed.

Lemma digits_mono (t t' : Z) : 0 < t -> t <= t' -> digits t <= digits t'.
Proof. intros Ht Hle. unfold digits. pose proof (Z.log2_le_mono t t' Hle). lia. Qed.

Lemma digits_unique (t k : Z) : 0 < k -> 2 ^ (k - 1) <= t < 2 ^ k -> digits t = k.
Proof.
  intros Hk [Hlo Hhi]. unfold digits.
  assert (Ht : 0 < t) by (pose proof (Z.pow_pos_nonneg 2 (k - 1)); lia).
  assert (Z.log2 t = k - 1); [ | lia ].
  apply Z.log2_unique; [ lia | ]. replace (Z.succ (k - 1)) with k by lia. lia.
Qed.

(** Rounding of the positive integer [t] to 53 significant bits, on a grid
    no finer than [2 ^ gmin]. *)
Definition grid (gmin t : Z) : Z := Z.max (digits t - 53) gmin.
Definition RN (gmin t : Z) : Z := Py.rne t (2 ^ grid gmin t) * 2 ^ grid gmin t.

Lemma pow2_pos (k : Z) : 0 <= k -> 0 < 2 ^ k.
Proof. intros. apply Z.pow_pos_nonneg; lia. Qed.

Lemma grid_nonneg gmin t : 0 <= gmin -> 0 <= grid gmin t.
Proof. unfold grid. lia. Qed.

Lemma rne_mantissa_le (gmin t : Z) :
  0 <= gmin -> 0 < t -> Py.rne t (2 ^ grid gmin t) <= 2 ^ 53.
Proof.
  intros Hg Ht.
  pose proof (grid_nonneg gmin t Hg) as Hgrid.
  pose proof (pow2_pos _ Hgrid) as Hp.
  rewrite <- (rne_exact (2 ^ 53) (2 ^ grid gmin t) Hp).
  apply rne_mono; try assumption.
  destruct (digits_bounds t Ht) as [_ Hhi].
  pose proof (digits_pos t Ht).
  assert (2 ^ digits t <= 2 ^ (53 + grid gmin t)).
  { apply Z.pow_le_mono_r; unfold grid; lia. }
  rewrite Z.pow_add_r in H0 by lia. nia.
Qed.

Lemma rne_mantissa_ge (gmin t : Z) :
  0 <= gmin -> 0 < t -> gmin < grid gmin t ->
  2 ^ 52 <= Py.rne t (2 ^ grid gmin t).
Proof.
  intros Hg Ht Hn.
  pose proof (grid_nonneg gmin t Hg) as Hgrid.
  pose proof (pow2_pos _ Hgrid) as Hp.
  rewrite <- (rne_exact (2 ^ 52) (2 ^ grid gmin t) Hp) at 1.
  apply rne_mono; try assumption.
  destruct (digits_bounds t Ht) as [Hlo _].
  assert (Hgr : grid gmin t = digits t - 53) by (unfold grid in *; lia).
  rewrite Hgr in *.
  replace (digits t - 1) with (52 + (digits t - 53)) in Hlo by lia.
  rewrite Z.pow_add_r in Hlo by lia. nia.
Qed.

Lemma RN_mono (gmin t t' : Z) :
  0 <= gmin -> 0 < t -> t <= t' -> RN gmin t <= RN gmin t'.
Proof.
  intros Hg Ht Hle. unfold RN.
  assert (Ht' : 0 < t') by lia.
  pose proof (digits_mono t t' Ht Hle) as Hd.
  pose proof (grid_nonneg gmin t Hg) as Hg1.
  pose proof (grid_nonneg gmin t' Hg) as Hg2.
  pose proof (pow2_pos _ Hg1) as Hp1.
  pose proof (pow2_pos _ Hg2) as Hp2.
  assert (Hgg : grid gmin t <= grid gmin t') by (unfold grid; lia).
  destruct (Z.eq_dec (grid gmin t) (grid gmin t')) as [Heq | Hne].
  - rewrite Heq. apply Z.mul_le_mono_nonneg_r; [ lia | ].
    apply rne_mono; try assumption.
    apply Z.mul_le_mono_nonneg_r; lia.
  - assert (Hlt : grid gmin t + 1 <= grid gmin t') by lia.
    pose proof (rne_mantissa_le gmin t Hg Ht) as Hup.
    assert (Hlo : 2 ^ 52 <= Py.rne t' (2 ^ grid gmin t')).
    { apply rne_mantissa_ge; try assumption. unfold grid in *. lia. }
    assert (Hpow : 2 * 2 ^ grid gmin t <= 2 ^ grid gmin t').
    { replace (2 * 2 ^ grid gmin t) with (2 ^ (grid gmin t + 1))
        by (rewrite Z.pow_add_r by lia; lia).
      apply Z.pow_le_mono_r; lia. }
    change (2 ^ 53) with (2 ^ 52 * 2) in Hup.
    assert (0 < 2 ^ 52) by (apply pow2_pos; lia).
    nia.
Qed.

Lemma digits2_pos_size (m : positive) : digits2_pos m = Pos.size m.
Proof. induction m as [m IH | m IH |]; simpl; congruence. Qed.

Lemma Zpos_digits2_pos (m : positive) : Z.pos (digits2_pos m) = digits (Z.pos m).
Proof.
  rewrite digits2_pos_size. unfold digits.
  destruct m as [m | m |]; cbn [Z.log2 Pos.size]; lia.
Qed.

Lemma digits_shift (t a : Z) : 0 < t -> 0 <= a -> digits (t * 2 ^ a) = digits t + a.
Proof.
  intros Ht Ha. destruct (digits_bounds t Ht) as [Hlo Hhi].
  pose proof (digits_pos t Ht) as Hd.
  pose proof (pow2_pos a Ha) as Hp.
  apply digits_unique; [ lia | ].
  replace (digits t + a - 1) with (digits t - 1 + a) by lia.
  rewrite !Z.pow_add_r by lia. nia.
Qed.

(** ** Shifting right with a sticky location *)

Definition loc_ok (k rem : Z) (r s : bool) : Prop :=
  match r, s with
  | false, false => rem = 0
  | false, true => 0 < rem /\ 2 * rem < 2 ^ k
  | true, false => 2 * rem = 2 ^ k
  | true, true => 2 ^ k < 2 * rem
  end.

Definition shr_inv (m k : Z) (mrs : shr_record) : Prop :=
  exists rem,
    0 <= shr_m mrs /\ m = shr_m mrs * 2 ^ k + rem /\ 0 <= rem < 2 ^ k /\
    loc_ok k rem (shr_r mrs) (shr_s mrs).

Lemma shr_inv_init (m : Z) :
  0 <= m -> shr_inv m 0 (shr_record_of_loc m loc_Exact).
Proof.
  intros Hm. exists 0. simpl. repeat split; lia.
Qed.

Lemma shr_inv_step (m k : Z) (mrs : shr_record) :
  0 <= k -> shr_inv m k mrs -> shr_inv m (k + 1) (shr_1 mrs).
Proof.
  intros Hk (rem & Hm & Heq & Hrem & Hloc).
  pose proof (pow2_pos k Hk) as Hp.
  assert (Hpk : 2 ^ (k + 1) = 2 * 2 ^ k) by (rewrite Z.pow_add_r by lia; lia).
  destruct mrs as [mm r s]. cbn [shr_m shr_r shr_s] in *.
  destruct mm as [| [p | p |] | p]; cbn [shr_1 shr_m shr_r shr_s]; try lia.
  - exists rem. cbn [shr_m shr_r shr_s]. rewrite Hpk.
    repeat split; try lia.
    destruct r, s; cbn [orb loc_ok] in *; rewrite ?Hpk; lia.
  - exists (2 ^ k + rem). cbn [shr_m shr_r shr_s]. rewrite Hpk.
    repeat split; try lia.
    destruct r, s; cbn [orb loc_ok] in *; rewrite ?Hpk; lia.
  - exists rem. cbn [shr_m shr_r shr_s]. rewrite Hpk.
    repeat split; try lia.
    destruct r, s; cbn [orb loc_ok] in *; rewrite ?Hpk; lia.
  - exists (2 ^ k + rem). cbn [shr_m shr_r shr_s]. rewrite Hpk.
    repeat split; try lia.
    destruct r, s; cbn [orb loc_ok] in *; rewrite ?Hpk; lia.
Qed.

Lemma shr_inv_iter (m : Z) (p : positive) :
  forall k mrs, 0 <= k -> shr_inv m k mrs ->
                shr_inv m (k + Z.pos p) (SpecFloat.iter_pos shr_1 p mrs).
Proof.
  induction p as [p IH | p IH |]; intros k mrs Hk H; cbn [SpecFloat.iter_pos].
  - replace (k + Z.pos p~1) with (k + 1 + Z.pos p + Z.pos p) by lia.
    apply IH; [ lia | ]. apply IH; [ lia | ]. apply shr_inv_step; assumption.
  - replace (k + Z.pos p~0) with (k + Z.pos p + Z.pos p) by lia.
    apply IH; [ lia | ]. apply IH; assumption.
  - apply shr_inv_step; assumption.
Qed.

Lemma shr_inv_round (m k : Z) (mrs : shr_record) :
  0 <= k -> shr_inv m k mrs ->
  round_nearest_even (shr_m mrs) (loc_of_shr_record mrs) = Py.rne m (2 ^ k).
Proof.
  intros Hk (rem & Hm & Heq & Hrem & Hloc).
  pose proof (pow2_pos k Hk) as Hp.
  destruct mrs as [q r s]. cbn [shr_m shr_r shr_s] in *.
  assert (Hq : m / 2 ^ k = q).
  { symmetry. apply (Z.div_unique m (2 ^ k) q rem); lia. }
  assert (Hr : m mod 2 ^ k = rem).
  { symmetry. apply (Z.mod_unique m (2 ^ k) q rem); lia. }
  unfold Py.rne. rewrite Hq, Hr.
  destruct r, s; cbn [loc_ok loc_of_shr_record round_nearest_even] in *.
  - destruct (Z.ltb_spec (2 * rem) (2 ^ k)); [ lia | ].
    destruct (Z.ltb_spec (2 ^ k) (2 * rem)); [ reflexivity | lia ].
  - destruct (Z.ltb_spec (2 * rem) (2 ^ k)); [ lia | ].
    destruct (Z.ltb_spec (2 ^ k) (2 * rem)); [ lia | reflexivity ].
  - destruct (Z.ltb_spec (2 * rem) (2 ^ k)); [ reflexivity | lia ].
  - destruct (Z.ltb_spec (2 * rem) (2 ^ k)); [ reflexivity | lia ].
Qed.

Lemma shr_exact (m e n : Z) :
  0 <= m -> 0 <= n ->
  snd (shr (shr_record_of_loc m loc_Exact) e n) = e + n /\
  shr_inv m n (fst (shr (shr_record_of_loc m loc_Exact) e n)).
Proof.
  intros Hm Hn. destruct n as [| p | p]; cbn [shr fst snd]; try lia.
  - split; [ lia | apply shr_inv_init, Hm ].
  - split; [ reflexivity | ].
    apply (shr_inv_iter m p 0); [ lia | apply shr_inv_init, Hm ].
Qed.

Lemma shr_none (mrs : shr_record) (e n : Z) : n <= 0 -> shr mrs e n = (mrs, e).
Proof. intros Hn. destruct n; try reflexivity. lia. Qed.

(** ** [binary_round_aux] on an exact positive mantissa *)

Lemma fexp_eq (k : Z) : fexp prec emax k = Z.max (k - 53) (-1074).
Proof. reflexivity. Qed.

Lemma Zdigits2_pos (m : Z) : 0 < m -> Zdigits2 m = digits m.
Proof.
  intros Hm. destruct m as [| p | p]; try lia. apply Zpos_digits2_pos.
Qed.

Lemma pow2_le_inv (a b : Z) : 0 <= a -> 0 <= b -> 2 ^ a < 2 ^ b -> a < b.
Proof. intros Ha Hb H. apply (Z.pow_lt_mono_r_iff 2); lia. Qed.

(** Rounding [P * 2^e] to binary64 gives the float whose value is
    [RN] of the exact value; [Ks] scales values to integers. *)
Lemma binary_round_aux_exact (s : bool) (P : positive) (e Ks : Z) :
  let T := Z.pos P * 2 ^ (e + Ks) in
  let gmin := Ks - 1074 in
  let M1 := Py.rne T (2 ^ grid gmin T) in
  0 <= e + Ks -> 0 <= gmin ->
  e <= fexp prec emax (digits (Z.pos P) + e) ->
  0 < M1 ->
  RN gmin T < 2 ^ (972 + Ks) ->
  exists M E,
    binary_round_aux prec emax s (Z.pos P) e loc_Exact = S754_finite s M E /\
    Z.pos M * 2 ^ (E + Ks) = RN gmin T /\
    -1074 <= E /\
    (M1 < 2 ^ 53 -> Z.pos M = M1 /\ E = grid gmin T - Ks).
Proof.
  intros T gmin M1 Ha Hg Hn Hpos Hov.
  set (D := digits (Z.pos P)) in *.
  set (E := fexp prec emax (D + e)) in *.
  assert (HT : 0 < T) by (subst T; pose proof (pow2_pos _ Ha); lia).
  assert (HdT : digits T = D + (e + Ks)).
  { subst T D. apply digits_shift; lia. }
  assert (Hgrid : grid gmin T = E + Ks).
  { unfold grid. rewrite HdT. subst E gmin. rewrite fexp_eq. lia. }
  assert (HE : -1074 <= E) by (subst E; rewrite fexp_eq; lia).
  assert (Hn0 : 0 <= E - e) by lia.
  assert (HM1 : M1 = Py.rne (Z.pos P) (2 ^ (E - e))).
  { subst M1. rewrite Hgrid.
    replace (E + Ks) with (E - e + (e + Ks)) by lia.
    rewrite Z.pow_add_r by lia. subst T.
    apply rne_scale; apply pow2_pos; lia. }
  assert (HRN : RN gmin T = M1 * 2 ^ (E + Ks)).
  { unfold RN. fold M1. rewrite Hgrid. reflexivity. }
  assert (Hup : M1 <= 2 ^ 53) by (apply rne_mantissa_le; lia).
  (* first shift and rounding *)
  unfold binary_round_aux, shr_fexp.
  rewrite Zdigits2_pos by lia. fold D. fold E.
  destruct (shr_exact (Z.pos P) e (E - e) ltac:(lia) Hn0) as [He1 Hinv1].
  destruct (shr (shr_record_of_loc (Z.pos P) loc_Exact) e (E - e)) as [mrs1 e1].
  cbn [fst snd] in He1, Hinv1.
  rewrite (shr_inv_round _ _ _ Hn0 Hinv1), <- HM1.
  replace e1 with E by lia.
  rewrite Zdigits2_pos by exact Hpos.
  set (n2 := fexp prec emax (digits M1 + E) - E).
  pose proof (pow2_pos (E + Ks) ltac:(lia)) as HpE.
  destruct (Z_lt_le_dec M1 (2 ^ 53)) as [Hlt | Hge].
  - (* the mantissa fits *)
    assert (Hd1 : digits M1 <= 53).
    { destruct (digits_bounds M1 Hpos) as [Hlo _].
      destruct (Z_le_gt_dec (digits M1) 53) as [H | H]; [ exact H | exfalso ].
      assert (2 ^ 53 <= 2 ^ (digits M1 - 1)) by (apply Z.pow_le_mono_r; lia).
      lia. }
    assert (Hn2 : n2 <= 0) by (subst n2; rewrite fexp_eq; lia).
    rewrite (shr_none _ _ _ Hn2). cbn [shr_m shr_record_of_loc].
    destruct M1 as [| M | M] eqn:HM; try lia.
    assert (HEmax : E <= 971).
    { assert (2 ^ (E + Ks) < 2 ^ (972 + Ks)) by nia.
      apply pow2_le_inv in H; lia. }
    replace (E <=? emax - prec) with true
      by (symmetry; apply Z.leb_le; exact HEmax).
    exists M, E. repeat split; lia.
  - (* the mantissa was rounded up to 2^53 *)
    assert (HM53 : M1 = 2 ^ 53) by lia.
    assert (Hd1 : digits M1 = 54).
    { rewrite HM53. reflexivity. }
    assert (Hn2 : n2 = 1) by (subst n2; rewrite fexp_eq, Hd1; lia).
    rewrite Hn2, HM53. cbn [shr shr_record_of_loc SpecFloat.iter_pos].
    change (2 ^ 53) with (Z.pos (2 ^ 52)~0). cbn [shr_1 shr_m].
    assert (HEmax : E + 1 <= 971).
    { rewrite HRN, HM53, <- Z.pow_add_r in Hov by lia.
      apply pow2_le_inv in Hov; lia. }
    replace (E + 1 <=? emax - prec) with true
      by (symmetry; apply Z.leb_le; exact HEmax).
    exists (2 ^ 52)%positive, (E + 1). repeat split; try lia.
    rewrite HRN, HM53.
    replace (E + 1 + Ks) with (1 + (E + Ks)) by lia.
    rewrite Z.pow_add_r by lia. change (2 ^ 53) with (Z.pos (2 ^ 52) * 2 ^ 1). lia.
Qed.

(** The value of a finite float, scaled by 2^1074. *)
Definition Zval (x : spec_float) : Z :=
  match x with
  | S754_finite s m e => cond_Zopp s (Z.pos m * 2 ^ (e + 1074))
  | _ => 0
  end.

Definition SFfinite (x : spec_float) : bool :=
  match x with
  | S754_finite _ _ _ | S754_zero _ => true
  | _ => false
  end.

Lemma valid_finite (s : bool) (m : positive) (e : Z) :
  valid_binary (S754_finite s m e) = true ->
  -1074 <= e /\ digits (Z.pos m) <= 53 /\ (-1074 < e -> digits (Z.pos m) = 53).
Proof.
  unfold valid_binary, bounded, canonical_mantissa.
  intros H. apply andb_prop in H as [H _]. apply Z.eqb_eq in H.
  rewrite Zpos_digits2_pos, fexp_eq in H. lia.
Qed.

Lemma mantissa_lt (m : positive) : digits (Z.pos m) <= 53 -> Z.pos m < 2 ^ 53.
Proof.
  intros H. destruct (digits_bounds (Z.pos m) ltac:(lia)) as [_ Hhi].
  assert (2 ^ digits (Z.pos m) <= 2 ^ 53) by (apply Z.pow_le_mono_r; lia).
  lia.
Qed.

Lemma mantissa_ge (m : positive) : digits (Z.pos m) = 53 -> 2 ^ 52 <= Z.pos m.
Proof.
  intros H. destruct (digits_bounds (Z.pos m) ltac:(lia)) as [Hlo _].
  rewrite H in Hlo. exact Hlo.
Qed.

Lemma canonical_lt (s1 s2 : bool) (m1 m2 : positive) (e1 e2 : Z) :
  valid_binary (S754_finite s1 m1 e1) = true ->
  valid_binary (S754_finite s2 m2 e2) = true ->
  e1 < e2 ->
  Z.pos m1 * 2 ^ (e1 + 1074) < Z.pos m2 * 2 ^ (e2 + 1074).
Proof.
  intros H1 H2 Hlt.
  apply valid_finite in H1 as (He1 & Hd1 & _).
  apply valid_finite in H2 as (He2 & _ & Hd2).
  pose proof (mantissa_lt m1 Hd1) as Hm1.
  pose proof (mantissa_ge m2 (Hd2 ltac:(lia))) as Hm2.
  pose proof (pow2_pos (e1 + 1074) ltac:(lia)) as Hp1.
  assert (Hpow : 2 * 2 ^ (e1 + 1074) <= 2 ^ (e2 + 1074)).
  { replace (2 * 2 ^ (e1 + 1074)) with (2 ^ (e1 + 1074 + 1))
      by (rewrite Z.pow_add_r by lia; lia).
    apply Z.pow_le_mono_r; lia. }
  change (2 ^ 53) with (2 * 2 ^ 52) in Hm1.
  assert (0 < 2 ^ 52) by reflexivity.
  nia.
Qed.

Lemma SFleb_Zval (x y : spec_float) :
  valid_binary x = true -> valid_binary y = true ->
  SFfinite x = true -> SFfinite y = true ->
  SFleb x y = true -> Zval x <= Zval y.
Proof.
  intros Hx Hy Fx Fy. unfold SFleb.
  destruct x as [sx | sx | | sx mx ex]; try discriminate;
    destruct y as [sy | sy | | sy my ey]; try discriminate.
  - cbn [SFcompare Zval]. destruct sy; [ discriminate | intros _ ].
    pose proof (valid_finite _ _ _ Hy) as (He & _).
    pose proof (pow2_pos (ey + 1074) ltac:(lia)). cbn [cond_Zopp]. lia.
  - cbn [SFcompare Zval]. destruct sx; [ intros _ | discriminate ].
    pose proof (valid_finite _ _ _ Hx) as (He & _).
    pose proof (pow2_pos (ex + 1074) ltac:(lia)). cbn [cond_Zopp]. lia.
  - pose proof (valid_finite _ _ _ Hx) as (Hex & _).
    pose proof (valid_finite _ _ _ Hy) as (Hey & _).
    pose proof (pow2_pos (ex + 1074) ltac:(lia)) as Hpx.
    pose proof (pow2_pos (ey + 1074) ltac:(lia)) as Hpy.
    cbn [SFcompare Zval].
    destruct sx, sy; cbn [cond_Zopp]; try discriminate.
    + destruct (Z.compare_spec ex ey) as [Heq | Hlt | Hgt].
      * subst ey. fold (Pos.compare mx my).
        destruct (Pos.compare_spec mx my); cbn [CompOpp]; try discriminate;
          intros _; nia.
      * discriminate.
      * intros _. pose proof (canonical_lt _ _ _ _ _ _ Hy Hx Hgt). lia.
    + intros _. nia.
    + destruct (Z.compare_spec ex ey) as [Heq | Hlt | Hgt].
      * subst ey. fold (Pos.compare mx my).
        destruct (Pos.compare_spec mx my); try discriminate; intros _; nia.
      * intros _. pose proof (canonical_lt _ _ _ _ _ _ Hx Hy Hlt). lia.
      * discriminate.
Qed.

(** ** Multiplication by 400 *)

Definition m400 : positive := 7036874417766400.   (* 400 * 2^44 *)
Definition c400 : spec_float := S754_finite false m400 (-44).

Lemma Prim2SF_400 : Prim2SF 400%float = c400.
Proof. vm_compute. reflexivity. Qed.

(** The magnitude of [fl(x * 400)] as a function of the magnitude of [x],
    both scaled by 2^1074. *)
Definition scale400 (X : Z) : Z := RN 44 (X * Z.pos m400) / 2 ^ 44.

Lemma RN_400 : RN 44 (2 ^ 1074 * Z.pos m400) = 400 * 2 ^ 1118.
Proof. vm_compute. reflexivity. Qed.

Lemma RN_divides (gmin t : Z) :
  0 <= gmin -> exists k, RN gmin t = k * 2 ^ gmin.
Proof.
  intros Hg. unfold RN.
  assert (H : gmin <= grid gmin t) by (unfold grid; lia).
  exists (Py.rne t (2 ^ grid gmin t) * 2 ^ (grid gmin t - gmin)).
  rewrite <- Z.mul_assoc, <- Z.pow_add_r by lia. f_equal. f_equal. lia.
Qed.

Lemma scale400_mono (X X' : Z) : 0 < X -> X <= X' -> scale400 X <= scale400 X'.
Proof.
  intros HX Hle. unfold scale400.
  apply Z.div_le_mono; [ reflexivity | ].
  apply RN_mono; nia.
Qed.

Lemma mul400_finite (s : bool) (m : positive) (e : Z) :
  valid_binary (S754_finite s m e) = true ->
  Z.pos m * 2 ^ (e + 1074) <= 2 ^ 1074 ->
  exists M E,
    SF64mul (S754_finite s m e) c400 = S754_finite s M E /\
    Z.pos M * 2 ^ (E + 1074) = scale400 (Z.pos m * 2 ^ (e + 1074)) /\
    0 < scale400 (Z.pos m * 2 ^ (e + 1074)) <= 400 * 2 ^ 1074.
Proof.
  intros Hv Hle.
  pose proof (valid_finite _ _ _ Hv) as (He & Hd & _).
  pose proof (pow2_pos (e + 1074) ltac:(lia)) as Hp.
  set (X := Z.pos m * 2 ^ (e + 1074)) in *.
  assert (HX : 0 < X) by (subst X; lia).
  set (T := X * Z.pos m400).
  assert (HT : 0 < T) by (subst T; lia).
  assert (HTeq : Z.pos (m * m400) * 2 ^ (e + -44 + 1118) = T).
  { subst T X. rewrite Pos2Z.inj_mul.
    replace (e + -44 + 1118) with (e + 1074) by lia. ring. }
  assert (Hbound : RN 44 T <= 400 * 2 ^ 1118).
  { rewrite <- RN_400. apply RN_mono; [ lia | exact HT | ].
    subst T. apply Z.mul_le_mono_nonneg_r; lia. }
  assert (HM1 : 0 < Py.rne T (2 ^ grid 44 T)).
  { destruct (Z_lt_le_dec 44 (grid 44 T)) as [Hnorm | Hsub].
    - pose proof (rne_mantissa_ge 44 T ltac:(lia) HT Hnorm).
      assert (0 < 2 ^ 52) by reflexivity. lia.
    - assert (Hg : grid 44 T = 44) by (unfold grid in *; lia).
      rewrite Hg. subst T.
      replace (X * Z.pos m400) with (X * 400 * 2 ^ 44) by (unfold m400; lia).
      rewrite rne_exact by reflexivity. lia. }
  destruct (binary_round_aux_exact s (m * m400) (e + -44) 1118)
    as (M & E & Hres & Hval & HE & _).
  - lia.
  - lia.
  - rewrite fexp_eq.
    assert (53 <= digits (Z.pos (m * m400))).
    { change 53 with (digits (Z.pos m400)). apply digits_mono; [ lia | ].
      rewrite Pos2Z.inj_mul. nia. }
    lia.
  - rewrite HTeq. exact HM1.
  - rewrite HTeq. eapply Z.le_lt_trans; [ exact Hbound | ]. reflexivity.
  - rewrite HTeq in Hval. replace (1118 - 1074) with 44 in Hval by lia.
    exists M, E. split; [ | split ].
    + unfold SF64mul, SFmul, c400. rewrite xorb_false_r. exact Hres.
    + unfold scale400. fold T. rewrite <- Hval.
      replace (E + 1118) with (E + 1074 + 44) by lia.
      rewrite (Z.pow_add_r 2 (E + 1074) 44) by (clear - HE; lia).
      rewrite Z.mul_assoc.
      rewrite Z.div_mul; [ reflexivity | ]. discriminate.
    + unfold scale400. fold T.
      destruct (RN_divides 44 T ltac:(lia)) as (k & Hk).
      rewrite Hk in *. rewrite Z.div_mul by discriminate.
      assert (0 < RN 44 T).
      { unfold RN. pose proof (pow2_pos (grid 44 T) (grid_nonneg 44 T ltac:(lia))). nia. }
      change (2 ^ 1118) with (2 ^ 1074 * 2 ^ 44) in Hbound.
      assert (0 < 2 ^ 44) by reflexivity.
      split; nia.
Qed.

(** ** Addition of 1500 *)

Definition m1500 : positive := 6597069766656000.   (* 1500 * 2^42 *)
Definition c1500 : spec_float := S754_finite false m1500 (-42).

Lemma Prim2SF_1500 : Prim2SF 1500%float = c1500.
Proof. vm_compute. reflexivity. Qed.

Lemma iter_xO (d m : positive) : Z.pos (Pos.iter xO m d) = Z.pos m * 2 ^ Z.pos d.
Proof.
  induction d as [| d IH] using Pos.peano_ind.
  - cbn [Pos.iter]. change (2 ^ 1) with 2. lia.
  - rewrite Pos.iter_succ, Pos2Z.inj_succ, Z.pow_succ_r by lia.
    rewrite Pos2Z.inj_xO, IH. lia.
Qed.

Lemma shl_align_le (m : positive) (e e' : Z) :
  e' <= e -> Z.pos (fst (shl_align m e e')) = Z.pos m * 2 ^ (e - e').
Proof.
  intros H. unfold shl_align. destruct (e' - e) as [| p | p] eqn:Hd; try lia.
  - replace (e - e') with 0 by lia. cbn [fst]. change (2 ^ 0) with 1. lia.
  - cbn [fst]. rewrite iter_xO. replace (e - e') with (Z.pos p) by lia.
    reflexivity.
Qed.

Lemma shl_align_ge (m : positive) (e e' : Z) :
  e <= e' -> shl_align m e e' = (m, e).
Proof.
  intros H. unfold shl_align. destruct (e' - e) as [| p | p] eqn:Hd; try lia;
    reflexivity.
Qed.

(** The mantissa of [fl(z + 1500)], on the grid 2^-42 of the floats
    between 1024 and 2048, from the value of [z] scaled by 2^1074. *)
Definition sum1500 (V : Z) : Z := Py.rne (V + 1500 * 2 ^ 1074) (2 ^ 1032).

Lemma sum1500_mono (V V' : Z) : V <= V' -> sum1500 V <= sum1500 V'.
Proof.
  intros H. unfold sum1500. apply rne_mono; try reflexivity.
  apply Z.mul_le_mono_nonneg_r; [ discriminate | lia ].
Qed.

Lemma cond_Zopp_mul (s : bool) (a b : Z) : cond_Zopp s a * b = cond_Zopp s (a * b).
Proof. destruct s; cbn [cond_Zopp]; lia. Qed.

Lemma add1500_finite (z : spec_float) :
  valid_binary z = true -> SFfinite z = true ->
  - (400 * 2 ^ 1074) <= Zval z <= 400 * 2 ^ 1074 ->
  exists M,
    SF64add z c1500 = S754_finite false M (-42) /\
    Z.pos M = sum1500 (Zval z) /\
    1100 * 2 ^ 42 <= Z.pos M <= 1900 * 2 ^ 42.
Proof.
  intros Hv Hf Hb.
  set (T := Zval z + 1500 * 2 ^ 1074).
  assert (HT : 1100 * 2 ^ 1074 <= T <= 1900 * 2 ^ 1074) by (subst T; lia).
  assert (HT0 : 0 < T).
  { assert (0 < 1100 * 2 ^ 1074) by reflexivity. lia. }
  assert (HdT : digits T = 1085).
  { apply digits_unique; [ lia | ].
    assert (2 ^ (1085 - 1) <= 1100 * 2 ^ 1074) by (vm_compute; discriminate).
    assert (1900 * 2 ^ 1074 < 2 ^ 1085) by reflexivity. lia. }
  assert (Hgrid : grid 0 T = 1032) by (unfold grid; rewrite HdT; reflexivity).
  assert (Hlo : 1100 * 2 ^ 42 <= sum1500 (Zval z)).
  { unfold sum1500. fold T.
    rewrite <- (rne_exact (1100 * 2 ^ 42) (2 ^ 1032)) at 1 by reflexivity.
    apply rne_mono; try reflexivity.
    change (1100 * 2 ^ 42 * 2 ^ 1032) with (1100 * 2 ^ 1074).
    apply Z.mul_le_mono_nonneg_r; [ discriminate | lia ]. }
  assert (Hhi : sum1500 (Zval z) <= 1900 * 2 ^ 42).
  { unfold sum1500. fold T.
    rewrite <- (rne_exact (1900 * 2 ^ 42) (2 ^ 1032)) by reflexivity.
    apply rne_mono; try reflexivity.
    change (1900 * 2 ^ 42 * 2 ^ 1032) with (1900 * 2 ^ 1074).
    apply Z.mul_le_mono_nonneg_r; [ discriminate | lia ]. }
  destruct z as [sz | sz | | sz mz ez]; try discriminate.
  - exists m1500. split; [ reflexivity | ].
    split; [ vm_compute; reflexivity | ].
    split; vm_compute; discriminate.
  - pose proof (valid_finite _ _ _ Hv) as (Hez & _).
    unfold SF64add, SFadd, c1500.
    set (ez' := Z.min ez (-42)).
    rewrite !shl_align_le by (subst ez'; lia).
    set (Sm := cond_Zopp sz (Z.pos mz * 2 ^ (ez - ez'))
              + cond_Zopp false (Z.pos m1500 * 2 ^ (-42 - ez'))).
    assert (HS : Sm * 2 ^ (ez' + 1074) = T).
    { subst Sm T. cbn [Zval cond_Zopp].
      rewrite Z.mul_add_distr_r, cond_Zopp_mul.
      rewrite <- !Z.mul_assoc, <- !Z.pow_add_r by (subst ez'; lia).
      replace (ez - ez' + (ez' + 1074)) with (ez + 1074) by lia.
      replace (-42 - ez' + (ez' + 1074)) with 1032 by lia.
      reflexivity. }
    pose proof (pow2_pos (ez' + 1074) ltac:(subst ez'; lia)) as Hp.
    assert (HSpos : 0 < Sm) by nia.
    destruct Sm as [| Sp | Sp] eqn:HSp; try lia.
    cbn [binary_normalize]. unfold binary_round.
    rewrite Zpos_digits2_pos.
    assert (HdS : digits (Z.pos Sp) + ez' = 11).
    { rewrite <- HS in HdT. rewrite digits_shift in HdT by (subst ez'; lia). lia. }
    rewrite HdS. rewrite shl_align_ge by (rewrite fexp_eq; subst ez'; lia).
    destruct (binary_round_aux_exact false Sp ez' 1074)
      as (M & E & Hres & Hval & HE & Hfit).
    + subst ez'. lia.
    + lia.
    + rewrite HdS, fexp_eq. subst ez'. lia.
    + rewrite HS. replace (1074 - 1074) with 0 by lia. rewrite Hgrid.
      unfold sum1500 in Hlo. fold T in Hlo.
      assert (0 < 1100 * 2 ^ 42) by reflexivity. lia.
    + rewrite HS. replace (1074 - 1074) with 0 by lia.
      unfold RN. rewrite Hgrid.
      unfold sum1500 in Hhi. fold T in Hhi.
      assert (1900 * 2 ^ 42 * 2 ^ 1032 < 2 ^ (972 + 1074)) by reflexivity.
      assert (0 < 2 ^ 1032) by reflexivity. nia.
    + rewrite HS in Hfit. replace (1074 - 1074) with 0 in Hfit by lia.
      rewrite Hgrid in Hfit.
      unfold sum1500 in Hlo, Hhi. fold T in Hlo, Hhi.
      destruct Hfit as [HM HEq].
      { assert (1900 * 2 ^ 42 < 2 ^ 53) by reflexivity. lia. }
      exists M. rewrite Hres. replace E with (-42) by lia.
      split; [ reflexivity | ]. unfold sum1500. fold T. lia.
Qed.

Definition signed400 (X : Z) : Z :=
  if 0 <? X then scale400 X
  else if X <? 0 then - scale400 (- X)
  else 0.

Lemma rne_nonneg (t d : Z) : 0 < d -> 0 <= t -> 0 <= Py.rne t d.
Proof.
  intros Hd Ht. rewrite <- (rne_exact 0 d Hd) at 1.
  apply rne_mono; lia.
Qed.

Lemma scale400_nonneg (X : Z) : 0 <= X -> 0 <= scale400 X.
Proof.
  intros HX. unfold scale400, RN.
  apply Z.div_pos; [ | reflexivity ].
  pose proof (pow2_pos _ (grid_nonneg 44 (X * Z.pos m400) ltac:(lia))) as Hp.
  apply Z.mul_nonneg_nonneg; [ | lia ].
  apply rne_nonneg; [ exact Hp | lia ].
Qed.

Lemma signed400_mono (X X' : Z) : X <= X' -> signed400 X <= signed400 X'.
Proof.
  intros H. unfold signed400.
  destruct (Z.ltb_spec 0 X), (Z.ltb_spec 0 X'); try lia.
  - apply scale400_mono; lia.
  - destruct (Z.ltb_spec X 0).
    + pose proof (scale400_nonneg (- X)). pose proof (scale400_nonneg X'). lia.
    + pose proof (scale400_nonneg X'). lia.
  - destruct (Z.ltb_spec X 0), (Z.ltb_spec X' 0); try lia.
    + pose proof (scale400_mono (- X') (- X)). lia.
    + pose proof (scale400_nonneg (- X)). lia.
Qed.

Lemma Prim2SF_m1 : Prim2SF (-1)%float = S754_finite true 4503599627370496 (-52).
Proof. vm_compute. reflexivity. Qed.

Lemma Prim2SF_1 : Prim2SF 1%float = S754_finite false 4503599627370496 (-52).
Proof. vm_compute. reflexivity. Qed.

Lemma in_unit_range_finite (v : float) :
  in_unit_range v ->
  SFfinite (Prim2SF v) = true /\
  - 2 ^ 1074 <= Zval (Prim2SF v) <= 2 ^ 1074.
Proof.
  intros [Hlo Hhi]. rewrite leb_spec in Hlo, Hhi.
  rewrite Prim2SF_m1 in Hlo. rewrite Prim2SF_1 in Hhi.
  pose proof (Prim2SF_valid v) as Hv.
  assert (Hf : SFfinite (Prim2SF v) = true).
  { destruct (Prim2SF v) as [s | [|] | | s m e]; try reflexivity; discriminate. }
  split; [ exact Hf | ]. split.
  - change (- 2 ^ 1074) with (Zval (S754_finite true 4503599627370496 (-52))).
    apply SFleb_Zval; auto.
  - change (2 ^ 1074) with (Zval (S754_finite false 4503599627370496 (-52))).
    apply SFleb_Zval; auto.
Qed.

Lemma mul400_value (v : float) :
  in_unit_range v ->
  SFfinite (Prim2SF (v * 400)%float) = true /\
  Zval (Prim2SF (v * 400)%float) = signed400 (Zval (Prim2SF v)) /\
  - (400 * 2 ^ 1074) <= signed400 (Zval (Prim2SF v)) <= 400 * 2 ^ 1074.
Proof.
  intros Hv. destruct (in_unit_range_finite v Hv) as [Hf Hb].
  pose proof (Prim2SF_valid v) as Hval.
  rewrite mul_spec, Prim2SF_400.
  destruct (Prim2SF v) as [s | s | | s m e]; try discriminate.
  - cbn. repeat split; discriminate.
  - pose proof (valid_finite _ _ _ Hval) as (He & _).
    pose proof (pow2_pos (e + 1074) ltac:(lia)) as Hp.
    destruct (mul400_finite s m e Hval) as (M & E & Hres & HM & Hrange).
    { cbn [Zval] in Hb. destruct s; cbn [cond_Zopp] in Hb; lia. }
    rewrite Hres. split; [ reflexivity | ].
    cbn [Zval]. rewrite HM. unfold signed400.
    set (X := Z.pos m * 2 ^ (e + 1074)) in *.
    assert (HX : 0 < X) by (subst X; lia).
    destruct s; cbn [cond_Zopp].
    + destruct (Z.ltb_spec 0 (- X)); [ lia | ].
      destruct (Z.ltb_spec (- X) 0); [ | lia ].
      rewrite Z.opp_involutive. lia.
    + destruct (Z.ltb_spec 0 X); [ | lia ]. lia.
Qed.

(** What [round(v * 400 + 1500)] is for [v] in [-1, 1]. *)
Definition axis_round (v : float) : Z :=
  Py.rne (sum1500 (signed400 (Zval (Prim2SF v)))) (2 ^ 42).

Lemma round_axis (v : float) :
  in_unit_range v ->
  Py.round (v * 400 + 1500)%float = inr (axis_round v) /\
  1100 <= axis_round v <= 1900.
Proof.
  intros Hv. destruct (mul400_value v Hv) as (Hf & Hz & Hb).
  unfold Py.round. rewrite add_spec, Prim2SF_1500.
  destruct (add1500_finite (Prim2SF (v * 400)%float)) as (M & Hres & HM & Hrange).
  - apply Prim2SF_valid.
  - exact Hf.
  - rewrite Hz. exact Hb.
  - rewrite Hres. cbn [Z.leb Z.compare cond_Zopp Z.opp].
    rewrite Hz in HM. unfold axis_round. rewrite <- HM.
    split; [ reflexivity | ]. split.
    + rewrite <- (rne_exact 1100 (2 ^ 42)) at 1 by reflexivity.
      apply rne_mono; try reflexivity. lia.
    + rewrite <- (rne_exact 1900 (2 ^ 42)) by reflexivity.
      apply rne_mono; try reflexivity. lia.
Qed.

Lemma axis_round_mono (v w : float) :
  in_unit_range v -> in_unit_range w -> (v <=? w)%float = true ->
  axis_round v <= axis_round w.
Proof.
  intros Hv Hw Hle. unfold axis_round.
  apply rne_mono; try reflexivity.
  apply Z.mul_le_mono_nonneg_r; [ discriminate | ].
  apply sum1500_mono, signed400_mono.
  rewrite leb_spec in Hle.
  apply SFleb_Zval; try apply Prim2SF_valid; try assumption.
  - apply (in_unit_range_finite v Hv).
  - apply (in_unit_range_finite w Hw).
Qed.


End Binary64.

(** ** Axis values to PWM *)

Definition clamp (pwm : Z) : Z := Z.min (Z.max pwm 1100) 1900.

Lemma clamp_mono (a b : Z) : a <= b -> clamp a <= clamp b.
Proof. unfold clamp. lia. Qed.

Lemma clamp_range (a : Z) : 1100 <= clamp a <= 1900.
Proof. unfold clamp. lia. Qed.

Lemma range_check (v : float) :
  ((-1 <=? v) && (v <=? 1))%float = true <-> in_unit_range v.
Proof. unfold in_unit_range. rewrite andb_true_iff. tauto. Qed.

Lemma input_pwm_in_range (v : float) (s : vehicle) :
  in_unit_range v ->
  input_pwm v s = (Return (clamp (Binary64.axis_round v)), s, []).
Proof.
  intros Hv. destruct (Binary64.round_axis v Hv) as [Hround _].
  apply range_check in Hv. unfold input_pwm. rewrite Hv, Hround.
  reflexivity.
Qed.

Lemma input_pwm_out_of_range (v : float) (s : vehicle) :
  ~ in_unit_range v ->
  input_pwm v s = (Raise (InputOutOfRange v), s, []).
Proof.
  intros Hv. unfold input_pwm.
  destruct ((-1 <=? v) && (v <=? 1))%float eqn:E; [ | reflexivity ].
  apply range_check in E. contradiction.
Qed.

(** C5: on a float [v] with [-1 <= v <= 1] the axis-to-PWM step of
    [set_rc_inputs] returns [round(v * 400 + 1500)] clamped to
    [1100, 1900] (the rounded value lies in that range already); the
    result does not decrease when [v] grows, and is 1100, 1500 and 1900
    at -1, 0 and 1; on any other float, NaN and the infinities included,
    the step raises a [ValueError].  The arithmetic is binary64. *)
Theorem axis_to_pwm_mapping :
  (forall v s, in_unit_range v ->
     exists r pwm,
       Py.round (v * 400 + 1500)%float = inr r /\
       pwm = Z.min (Z.max r 1100) 1900 /\
       input_pwm v s = (Return pwm, s, []) /\
       1100 <= r <= 1900 /\ 1100 <= pwm <= 1900) /\
  (forall v w s,
     in_unit_range v -> in_unit_range w -> (v <=? w)%float = true ->
     exists pv pw,
       input_pwm v s = (Return pv, s, []) /\
       input_pwm w s = (Return pw, s, []) /\
       pv <= pw) /\
  (forall s, input_pwm (-1) s = (Return 1100, s, []) /\
             input_pwm 0 s = (Return 1500, s, []) /\
             input_pwm 1 s = (Return 1900, s, [])) /\
  (forall v s, ~ in_unit_range v ->
     exists e, is_ValueError e = true /\ input_pwm v s = (Raise e, s, [])).
Proof.
  split; [ | split; [ | split ] ].
  - intros v s Hv. destruct (Binary64.round_axis v Hv) as [Hround Hr].
    exists (Binary64.axis_round v), (clamp (Binary64.axis_round v)).
    split; [ exact Hround | ]. split; [ reflexivity | ].
    split; [ apply input_pwm_in_range, Hv | ].
    split; [ exact Hr | apply clamp_range ].
  - intros v w s Hv Hw Hvw. do 2 eexists.
    split; [ apply input_pwm_in_range, Hv | ].
    split; [ apply input_pwm_in_range, Hw | ].
    apply clamp_mono, Binary64.axis_round_mono; assumption.
  - intros s. repeat split; vm_compute; reflexivity.
  - intros v s Hv. exists (InputOutOfRange v).
    split; [ reflexivity | apply input_pwm_out_of_range, Hv ].
Qed.

Lemma axis_to_pwm_mapping_witness :
  (in_unit_range 0.25 /\ in_unit_range 0.5 /\ (0.25 <=? 0.5)%float = true) /\
  (exists pv pw,
     input_pwm 0.25 (init true) = (Return pv, init true, []) /\
     input_pwm 0.5 (init true) = (Return pw, init true, []) /\
     pv <= pw) /\
  (~ in_unit_range 1.5 /\
   exists e, is_ValueError e = true /\
             input_pwm 1.5 (init true) = (Raise e, init true, [])).
Proof.
  assert (H1 : in_unit_range 0.25) by (split; reflexivity).
  assert (H2 : in_unit_range 0.5) by (split; reflexivity).
  assert (H3 : (0.25 <=? 0.5)%float = true) by reflexivity.
  assert (H4 : ~ in_unit_range 1.5).
  { intros [_ H]. vm_compute in H. discriminate H. }
  split; [ auto | ]. split.
  - exact (proj1 (proj2 axis_to_pwm_mapping) _ _ (init true) H1 H2 H3).
  - split; [ exact H4 | ].
    exact (proj2 (proj2 (proj2 axis_to_pwm_mapping)) _ (init true) H4).
Defined.

(** A few values of the mapping (the two hexadecimal ones are the floats
    written 0.00125 and 0.00375, for which [val * 400 + 1500] comes out
    as 1500.5 and 1501.5), and what [round] does half-way and outside the
    finite numbers. *)
Example axis_to_pwm_examples :
  input_pwm 0.5 (init true) = (Return 1700, init true, []) /\
  input_pwm (-0.25) (init true) = (Return 1400, init true, []) /\
  input_pwm 0x1.47ae147ae147bp-10 (init true) = (Return 1500, init true, []) /\
  input_pwm 0x1.eb851eb851eb8p-9 (init true) = (Return 1502, init true, []) /\
  input_pwm nan (init true) = (Raise (InputOutOfRange nan), init true, []) /\
  input_pwm infinity (init true)
  = (Raise (InputOutOfRange infinity), init true, []) /\
  Py.round 0.5 = inr 0 /\ Py.round 1.5 = inr 2 /\ Py.round 2.5 = inr 2 /\
  Py.round (-0.5) = inr 0 /\ Py.round (-1.5) = inr (-2) /\
  Py.round nan = inl NanToInteger /\ Py.round infinity = inl OverflowError.
Proof. vm_compute. repeat split. Qed.

(** ** [set_rc_inputs] *)

Lemma inputs_loop_invalid (items : list (InputChannel * float)) :
  forall (pwms : list (Z * Z)) (s : vehicle),
    Exists (fun e => ~ in_unit_range (snd e)) items ->
    exists v,
      In v (map snd items) /\ ~ in_unit_range v /\
      inputs_loop items pwms s = (Raise (InputOutOfRange v), s, []).
Proof.
  induction items as [| [ch v] rest IH]; intros pwms s Hbad.
  - inversion Hbad.
  - cbn [inputs_loop]. unfold bind.
    destruct ((-1 <=? v) && (v <=? 1))%float eqn:Hv.
    + apply range_check in Hv.
      rewrite (input_pwm_in_range v s Hv).
      apply Exists_cons in Hbad as [Hbad | Hbad]; [ contradiction | ].
      destruct (IH (Py.dict_set (InputChannel_value ch)
                      (clamp (Binary64.axis_round v)) pwms) s Hbad)
        as (v' & Hin & Hv' & Hrun).
      exists v'. split; [ right; exact Hin | ]. split; [ exact Hv' | ].
      rewrite Hrun. reflexivity.
    + assert (Hnot : ~ in_unit_range v).
      { intros H. apply range_check in H. congruence. }
      exists v. split; [ left; reflexivity | ]. split; [ exact Hnot | ].
      rewrite (input_pwm_out_of_range v s Hnot). reflexivity.
Qed.

(** C9: when some value of the mapping lies outside [-1, 1],
    [set_rc_inputs] raises the [ValueError] of such a value in every state
    of the object, the object is unchanged and no event is produced:
    nothing is transmitted for the entries that were in range. *)
Theorem set_rc_inputs_all_or_nothing
  (values : list (InputChannel * float)) (s : vehicle) :
  (exists channel v, In (channel, v) values /\ ~ in_unit_range v) ->
  exists v,
    In v (map snd values) /\ ~ in_unit_range v /\
    set_rc_inputs values s = (Raise (InputOutOfRange v), s, []).
Proof.
  intros (ch & v & Hin & Hv).
  destruct (inputs_loop_invalid values [] s) as (v' & Hin' & Hv' & Hrun).
  - apply Exists_exists. exists (ch, v). split; [ | exact Hv ].
    now apply list_elem_of_In.
  - exists v'. split; [ exact Hin' | ]. split; [ exact Hv' | ].
    unfold set_rc_inputs, bind. rewrite Hrun. reflexivity.
Qed.

Lemma set_rc_inputs_all_or_nothing_witness :
  let values := [(THROTTLE, 1%float); (YAW, 1.5%float); (ROLL, 0.5%float)] in
  (exists channel v, In (channel, v) values /\ ~ in_unit_range v) /\
  (exists v,
     In v (map snd values) /\ ~ in_unit_range v /\
     set_rc_inputs values connected_and_armed
     = (Raise (InputOutOfRange v), connected_and_armed, [])).
Proof.
  intros values.
  assert (H : exists channel v, In (channel, v) values /\ ~ in_unit_range v).
  { exists YAW, 1.5%float. split; [ right; left; reflexivity | ].
    intros [_ H]. vm_compute in H. discriminate H. }
  split; [ exact H | ].
  exact (set_rc_inputs_all_or_nothing values connected_and_armed H).
Defined.

(** With every value in range and the gate open, the whole mapping goes
    out in one packet. *)
Example set_rc_inputs_sends_one_packet :
  set_rc_inputs [(THROTTLE, 1%float); (YAW, (-0.5)%float)] connected_and_armed
  = (Return tt, connected_and_armed,
     [LinkSend (RcChannelsOverride
        [65535; 65535; 1900; 1300; 65535; 65535; 65535; 65535; 65535;
         65535; 65535; 65535; 65535; 65535; 65535; 65535; 65535; 65535])]).
Proof. reflexivity. Qed.

Example stop_thrusters_centres_six_channels :
  stop_thrusters connected_and_armed
  = (Return tt, connected_and_armed,
     [LinkSend (RcChannelsOverride
        [1500; 1500; 1500; 1500; 1500; 1500; 65535; 65535; 65535;
         65535; 65535; 65535; 65535; 65535; 65535; 65535; 65535; 65535]);
      Log DebugThrustersStopped]).
Proof. reflexivity. Qed.

(** ** [disarm] *)

Definition relay_off_trace (s : vehicle) (relay : Relay) : list event :=
  if connected s
  then Log (DebugSettingRelay (Relay_value relay) false)
       :: SockSendall [Relay_value relay; 0]
       :: (if established (socket s) then []
           else [Log (ErrorSocketSend OSError)])
  else [].

Lemma set_relay_off (relay : Relay) (s : vehicle) :
  set_relay relay false s = (Return tt, s, relay_off_trace s relay).
Proof.
  rewrite set_relay_spec. unfold relay_off_trace.
  rewrite orb_true_r, andb_true_r. destruct (connected s); reflexivity.
Qed.

Lemma for_each_set_relay_off (relays : list Relay) (s : vehicle) :
  for_each relays (fun relay => set_relay relay false) s
  = (Return tt, s, flat_map (relay_off_trace s) relays).
Proof.
  induction relays as [| r rest IH]; [ reflexivity | ].
  cbn [for_each flat_map]. unfold bind.
  rewrite set_relay_off, IH. reflexivity.
Qed.

Lemma turn_off_relays_spec (s : vehicle) :
  turn_off_relays s
  = (Return tt, s, flat_map (relay_off_trace s) Relay_members).
Proof. apply for_each_set_relay_off. Qed.

Lemma disarm_spec (s : vehicle) :
  disarm s
  = (Return tt, s,
     trace_of (turn_off_relays s)
     ++ [LinkSend DisarmRequest; Log InfoDisarmSent]).
Proof.
  unfold disarm, bind. rewrite turn_off_relays_spec. reflexivity.
Qed.

Definition is_relay_message (e : event) : bool :=
  match e with SockSendall _ => true | _ => false end.

Definition is_disarm_request (e : event) : bool :=
  match e with LinkSend DisarmRequest => true | _ => false end.

Lemma relay_traffic_has_no_disarm_request (s : vehicle) (relays : list Relay) :
  Forall (fun e => is_disarm_request e = false)
         (flat_map (relay_off_trace s) relays).
Proof.
  induction relays as [| r rest IH]; [ constructor | ].
  cbn [flat_map]. apply Forall_app. split; [ | exact IH ].
  unfold relay_off_trace.
  destruct (connected s), (established (socket s)); repeat constructor.
Qed.

(** C6: [disarm()] runs the all-relays-off routine in every state, that
    is [set_relay(relay, False)] for each member of [Relay] in turn, and
    sends the disarm request after it: in the events of one call every
    message handed to the relay socket comes before the disarm request.
    When connected, an off message goes out for every relay. *)
Theorem disarm_turns_relays_off_first (s : vehicle) :
  trace_of (turn_off_relays s)
  = flat_map (fun relay => trace_of (set_relay relay false s)) Relay_members /\
  disarm s
  = (Return tt, s,
     trace_of (turn_off_relays s)
     ++ [LinkSend DisarmRequest; Log InfoDisarmSent]) /\
  (forall (i j : nat) payload,
      trace_of (disarm s) !! i = Some (SockSendall payload) ->
      trace_of (disarm s) !! j = Some (LinkSend DisarmRequest) ->
      (i < j)%nat) /\
  (connected s = true ->
   forall relay,
     In (SockSendall [Relay_value relay; 0]) (trace_of (turn_off_relays s))).
Proof.
  split; [ | split; [ apply disarm_spec | split ] ].
  - rewrite turn_off_relays_spec. unfold trace_of at 1. cbn [snd].
    unfold Relay_members. cbn [flat_map].
    rewrite !set_relay_off. reflexivity.
  - intros i j payload Hi Hj. rewrite disarm_spec in Hi, Hj.
    unfold trace_of at 1 in Hi. unfold trace_of at 1 in Hj. cbn [snd] in Hi, Hj.
    rewrite turn_off_relays_spec in Hi, Hj. unfold trace_of in Hi, Hj.
    cbn [snd] in Hi, Hj.
    pose proof (relay_traffic_has_no_disarm_request s Relay_members) as Hno.
    set (T := flat_map (relay_off_trace s) Relay_members) in *.
    destruct (Nat.lt_ge_cases j (length T)) as [Hlt | Hge].
    { rewrite lookup_app_l in Hj by exact Hlt.
      rewrite Forall_lookup in Hno. specialize (Hno _ _ Hj). discriminate. }
    destruct (Nat.lt_ge_cases i (length T)) as [Hlt' | Hge']; [ lia | ].
    rewrite lookup_app_r in Hi by exact Hge'.
    destruct (i - length T)%nat as [| [| k]]; discriminate.
  - intros Hc relay. rewrite turn_off_relays_spec. unfold trace_of. cbn [snd].
    apply in_flat_map. exists relay. split.
    + destruct relay; simpl; tauto.
    + unfold relay_off_trace. rewrite Hc. right. left. reflexivity.
Qed.

Lemma disarm_turns_relays_off_first_witness :
  connected connected_and_armed = true /\
  trace_of (disarm connected_and_armed) !! 11%nat = Some (SockSendall [5; 0]) /\
  trace_of (disarm connected_and_armed) !! 12%nat = Some (LinkSend DisarmRequest) /\
  (11 < 12)%nat /\
  In (SockSendall [Relay_value MAGNET; 0])
     (trace_of (turn_off_relays connected_and_armed)).
Proof.
  pose proof (disarm_turns_relays_off_first connected_and_armed)
    as (_ & _ & Horder & Hall).
  split; [ reflexivity | ]. split; [ reflexivity | ]. split; [ reflexivity | ].
  split.
  - exact (Horder 11%nat 12%nat [5; 0] eq_refl eq_refl).
  - exact (Hall eq_refl MAGNET).
Defined.

(** ** The poll [update] *)

Definition armed_bit (m : heartbeat) : bool := Z.land (base_mode m) 128 =? 128.

Lemma update_heartbeat (now : float) (m : heartbeat) (s : vehicle) :
  update now (Some m) s
  = (Return tt,
     {| last_msg_time := Some now; connected := true;
        armed := armed_bit m; socket := socket s |},
     (if connected s then [] else [Emit connected_signal])
     ++ (if Bool.eqb (armed_bit m) (armed s) then []
         else [Emit (if armed_bit m then armed_signal else disarmed_signal)])).
Proof.
  unfold update, armed_bit, bind, gets, emit, tell, modify, ret.
  destruct s as [t c a k]. cbn [connected armed].
  destruct c, a, (Z.land (base_mode m) 128 =? 128); reflexivity.
Qed.

Lemma update_silence (now : float) (s : vehicle) :
  update now None s
  = if connected s
    then match last_msg_time s with
         | None => (Raise TypeError, s, [])
         | Some t0 =>
             if (TIMEOUT <? now - t0)%float
             then (Return tt, set_connected false s, [Emit disconnected_signal])
             else (Return tt, s, [])
         end
    else (Return tt, s, []).
Proof.
  destruct s as [[t0 |] [|] a k];
    cbv [update bind gets emit tell modify ret raise connected last_msg_time];
    try reflexivity.
  destruct ((TIMEOUT <? now - t0)%float); reflexivity.
Qed.

(** ** Commands leave the flags alone *)

Definition is_emit (e : event) : bool :=
  match e with Emit _ => true | _ => false end.

(** A computation that changes neither flag nor the time of the last
    message, and emits no signal. *)
Definition keeps_flags {A} (m : M A) : Prop :=
  forall s,
    connected (state_of (m s)) = connected s /\
    armed (state_of (m s)) = armed s /\
    last_msg_time (state_of (m s)) = last_msg_time s /\
    Forall (fun e => is_emit e = false) (trace_of (m s)).

Lemma keeps_flags_ret {A} (a : A) : keeps_flags (ret a).
Proof. intros s. repeat split. constructor. Qed.

Lemma keeps_flags_raise {A} (e : exn) : keeps_flags (@raise A e).
Proof. intros s. repeat split. constructor. Qed.

Lemma keeps_flags_gets {A} (f : vehicle -> A) : keeps_flags (gets f).
Proof. intros s. repeat split. constructor. Qed.

Lemma keeps_flags_tell (ev : event) : is_emit ev = false -> keeps_flags (tell ev).
Proof. intros H s. repeat split. repeat constructor. exact H. Qed.

Lemma keeps_flags_bind {A B} (m : M A) (k : A -> M B) :
  keeps_flags m -> (forall a, keeps_flags (k a)) -> keeps_flags (bind m k).
Proof.
  intros Hm Hk s. unfold bind. specialize (Hm s).
  destruct (m s) as [[[a | e] s1] t1]; unfold state_of, trace_of in *;
    cbn [fst snd] in *; [ | exact Hm ].
  specialize (Hk a s1).
  destruct (k a s1) as [[r s2] t2]; unfold state_of, trace_of in *;
    cbn [fst snd] in *.
  destruct Hm as (Hc & Ha & Ht & Hf). destruct Hk as (Hc' & Ha' & Ht' & Hf').
  repeat split; try congruence. apply Forall_app. split; assumption.
Qed.

Lemma keeps_flags_try {A} (m : M A) (h : exn -> M A) :
  keeps_flags m -> (forall e, keeps_flags (h e)) -> keeps_flags (try_except m h).
Proof.
  intros Hm Hh s. unfold try_except. specialize (Hm s).
  destruct (m s) as [[[a | e] s1] t1]; unfold state_of, trace_of in *;
    cbn [fst snd] in *; [ exact Hm | ].
  specialize (Hh e s1).
  destruct (h e s1) as [[r s2] t2]; unfold state_of, trace_of in *;
    cbn [fst snd] in *.
  destruct Hm as (Hc & Ha & Ht & Hf). destruct Hh as (Hc' & Ha' & Ht' & Hf').
  repeat split; try congruence. apply Forall_app. split; assumption.
Qed.

Lemma keeps_flags_for_each {A} (l : list A) (body : A -> M unit) :
  (forall x, keeps_flags (body x)) -> keeps_flags (for_each l body).
Proof.
  intros Hbody. induction l as [| x l IH]; cbn [for_each].
  - apply keeps_flags_ret.
  - apply keeps_flags_bind; [ apply Hbody | intros _; exact IH ].
Qed.

Lemma keeps_flags_set_socket (f : vehicle -> relay_socket) :
  keeps_flags (modify (fun s => set_socket (f s) s)).
Proof. intros s. repeat split. constructor. Qed.

Create HintDb frame.
#[local] Hint Resolve keeps_flags_ret keeps_flags_raise keeps_flags_gets
  keeps_flags_set_socket : frame.

Ltac frame_step :=
  first
    [ apply keeps_flags_bind; [ | intros ? ]
    | apply keeps_flags_try; [ | intros ? ]
    | apply keeps_flags_for_each; intros ?
    | apply keeps_flags_tell; reflexivity
    | solve [ auto with frame ]
    | match goal with
      | |- keeps_flags (if ?b then _ else _) => destruct b
      | |- keeps_flags (match ?x with _ => _ end) => destruct x
      end ].

Ltac frame := repeat frame_step.

Lemma keeps_flags_override_loop (items : list (Z * Z)) :
  forall vals, keeps_flags (override_loop items vals).
Proof.
  induction items as [| [c p] rest IH]; intros vals; cbn [override_loop];
    frame.
Qed.

Lemma keeps_flags_set_rc_input_pwms (pwms : list (Z * Z)) :
  keeps_flags (set_rc_input_pwms pwms).
Proof.
  unfold set_rc_input_pwms. frame. apply keeps_flags_override_loop.
Qed.

Lemma keeps_flags_input_pwm (val : float) : keeps_flags (input_pwm val).
Proof. unfold input_pwm. frame. Qed.

Lemma keeps_flags_inputs_loop (items : list (InputChannel * float)) :
  forall pwms, keeps_flags (inputs_loop items pwms).
Proof.
  induction items as [| [ch v] rest IH]; intros pwms; cbn [inputs_loop].
  - frame.
  - apply keeps_flags_bind; [ apply keeps_flags_input_pwm | intros ?; apply IH ].
Qed.

Lemma keeps_flags_set_rc_inputs (values : list (InputChannel * float)) :
  keeps_flags (set_rc_inputs values).
Proof.
  unfold set_rc_inputs.
  apply keeps_flags_bind;
    [ apply keeps_flags_inputs_loop
    | intros ?; apply keeps_flags_set_rc_input_pwms ].
Qed.

Lemma keeps_flags_stop_thrusters : keeps_flags stop_thrusters.
Proof.
  unfold stop_thrusters.
  apply keeps_flags_bind; [ apply keeps_flags_set_rc_inputs | intros ?; frame ].
Qed.

Lemma keeps_flags_set_relay (relay : Relay) (state : bool) :
  keeps_flags (set_relay relay state).
Proof. unfold set_relay, bytes, sendall. frame. Qed.

Lemma keeps_flags_turn_off_relays : keeps_flags turn_off_relays.
Proof.
  unfold turn_off_relays. apply keeps_flags_for_each.
  intros relay. apply keeps_flags_set_relay.
Qed.

Lemma keeps_flags_arm : keeps_flags arm.
Proof. unfold arm, connect_ex. frame. Qed.

Lemma keeps_flags_disarm : keeps_flags disarm.
Proof.
  unfold disarm.
  apply keeps_flags_bind; [ apply keeps_flags_turn_off_relays | intros ?; frame ].
Qed.

Lemma keeps_flags_command (c : call) :
  is_update c = false -> keeps_flags (exec c).
Proof.
  destruct c; cbn [is_update exec]; intros H; try discriminate.
  - apply keeps_flags_arm.
  - apply keeps_flags_disarm.
  - apply keeps_flags_set_rc_input_pwms.
  - apply keeps_flags_set_rc_inputs.
  - apply keeps_flags_stop_thrusters.
  - apply keeps_flags_set_relay.
  - apply keeps_flags_turn_off_relays.
Qed.

Definition clears_armed_bit (c : call) : Prop :=
  match c with
  | Update _ (Some m) => armed_bit m = false
  | _ => True
  end.

Lemma update_armed (now : float) (msg : option heartbeat) (s : vehicle) :
  armed (state_of (update now msg s))
  = match msg with Some m => armed_bit m | None => armed s end.
Proof.
  destruct msg as [m |].
  - rewrite update_heartbeat. reflexivity.
  - rewrite update_silence.
    destruct (connected s); [ | reflexivity ].
    destruct (last_msg_time s) as [t0 |]; [ | reflexivity ].
    destruct ((TIMEOUT <? now - t0)%float); reflexivity.
Qed.

Lemma exec_armed (c : call) (s : vehicle) :
  clears_armed_bit c -> armed s = false -> armed (state_of (exec c s)) = false.
Proof.
  intros Hc Ha.
  destruct (is_update c) eqn:Hu.
  - destruct c; try discriminate. cbn [exec]. rewrite update_armed.
    destruct msg; [ exact Hc | exact Ha ].
  - destruct (keeps_flags_command c Hu s) as (_ & H & _). congruence.
Qed.

Lemma run_armed (cs : list call) :
  forall s, Forall clears_armed_bit cs -> armed s = false ->
            armed (fst (run cs s)) = false.
Proof.
  induction cs as [| c cs IH]; intros s Hcs Ha; [ exact Ha | ].
  apply Forall_cons in Hcs as [Hc Hcs]. cbn [run fst].
  apply IH; [ exact Hcs | ]. apply exec_armed; assumption.
Qed.

(** C10: a command method ([arm], [disarm], [set_rc_inputs],
    [set_rc_input_pwms], [set_relay], [stop_thrusters], [turn_off_relays])
    leaves [connected] and [armed] as they were, whether it returns or
    raises; [update] can change both.  [arm()] sends the arm request and
    [is_armed()] stays false through any later calls until an [update]
    sees a heartbeat with the armed bit, which sets it.  A failed relay
    send returns normally and leaves both flags as they were. *)
Theorem only_update_changes_flags :
  (forall c s, is_update c = false ->
     connected (state_of (exec c s)) = connected s /\
     armed (state_of (exec c s)) = armed s) /\
  (exists now m s,
     connected (state_of (update now (Some m) s)) <> connected s /\
     armed (state_of (update now (Some m) s)) <> armed s) /\
  (forall s cs, armed s = false -> Forall clears_armed_bit cs ->
     In (LinkSend ArmRequest) (trace_of (arm s)) /\
     is_armed (state_of (arm s)) = false /\
     is_armed (fst (run cs (state_of (arm s)))) = false) /\
  (forall now m s, armed_bit m = true ->
     is_armed (state_of (update now (Some m) s)) = true) /\
  (forall relay state s,
     connected s = true -> armed s = true -> established (socket s) = false ->
     In (Log (ErrorSocketSend OSError)) (trace_of (set_relay relay state s)) /\
     outcome_of (set_relay relay state s) = Return tt /\
     connected (state_of (set_relay relay state s)) = connected s /\
     armed (state_of (set_relay relay state s)) = armed s).
Proof.
  split; [ | split; [ | split; [ | split ] ] ].
  - intros c s Hu. destruct (keeps_flags_command c Hu s) as (Hc & Ha & _).
    split; assumption.
  - exists 0%float, {| base_mode := 128 |}, (init true). split; discriminate.
  - intros s cs Ha Hcs.
    destruct (keeps_flags_arm s) as (_ & Ha' & _).
    split; [ left; reflexivity | ].
    unfold is_armed. split; [ congruence | ].
    apply run_armed; [ exact Hcs | congruence ].
  - intros now m s Hm. unfold is_armed. rewrite update_armed. exact Hm.
  - intros relay state s Hc Ha Hk. rewrite set_relay_spec, Hc, Ha, Hk.
    cbn [andb orb]. unfold trace_of, outcome_of, state_of. cbn [fst snd].
    repeat split; try assumption. right. right. left. reflexivity.
Qed.

Lemma only_update_changes_flags_witness :
  let s := fst (run [Update 0 (Some {| base_mode := 209 |})] (init false)) in
  let cs := [Update 1 (Some {| base_mode := 81 |}); SetRelay LIGHTS true;
             SetRcInputs [(YAW, 1.5%float)]; Update 2 None] in
  (is_update Disarm = false /\
   connected (state_of (exec Disarm s)) = connected s /\
   armed (state_of (exec Disarm s)) = armed s) /\
  (armed (init false) = false /\ Forall clears_armed_bit cs /\
   In (LinkSend ArmRequest) (trace_of (arm (init false))) /\
   is_armed (state_of (arm (init false))) = false /\
   is_armed (fst (run cs (state_of (arm (init false))))) = false) /\
  (connected s = true /\ armed s = true /\ established (socket s) = false /\
   In (Log (ErrorSocketSend OSError)) (trace_of (set_relay MAGNET true s)) /\
   outcome_of (set_relay MAGNET true s) = Return tt /\
   connected (state_of (set_relay MAGNET true s)) = connected s /\
   armed (state_of (set_relay MAGNET true s)) = armed s).
Proof.
  intros s cs.
  pose proof only_update_changes_flags as (Hframe & _ & Harm & _ & Hfail).
  assert (Hcs : Forall clears_armed_bit cs).
  { repeat constructor. }
  split; [ | split ].
  - split; [ reflexivity | ]. exact (Hframe Disarm s eq_refl).
  - split; [ reflexivity | ]. split; [ exact Hcs | ].
    exact (Harm (init false) cs eq_refl Hcs).
  - split; [ reflexivity | ]. split; [ reflexivity | ].
    split; [ reflexivity | ].
    exact (Hfail MAGNET true s eq_refl eq_refl eq_refl).
Defined.

(** ** Signals *)

Definition signal_eqb (a b : signal) : bool :=
  match a, b with
  | connected_signal, connected_signal
  | disconnected_signal, disconnected_signal
  | armed_signal, armed_signal
  | disarmed_signal, disarmed_signal => true
  | _, _ => false
  end.

Definition emits (sg : signal) (e : event) : bool :=
  match e with Emit sg' => signal_eqb sg sg' | _ => false end.

(** How often the signal [sg] is emitted in a trace. *)
Definition count_signal (sg : signal) (tr : list event) : nat :=
  length (List.filter (emits sg) tr).

(** The change of a flag that the signal [sg] announces. *)
Definition flag_change (sg : signal) (s s' : vehicle) : bool :=
  match sg with
  | connected_signal => negb (connected s) && connected s'
  | disconnected_signal => connected s && negb (connected s')
  | armed_signal => negb (armed s) && armed s'
  | disarmed_signal => armed s && negb (armed s')
  end.

(** The number of calls of [cs], run from [s], over which the flag of
    [sg] changes the way [sg] announces. *)
Fixpoint changes (sg : signal) (cs : list call) (s : vehicle) : nat :=
  match cs with
  | [] => 0
  | c :: cs' =>
      let s' := state_of (exec c s) in
      ((if flag_change sg s s' then 1 else 0) + changes sg cs' s')%nat
  end.

Lemma count_signal_app (sg : signal) (t1 t2 : list event) :
  count_signal sg (t1 ++ t2) = (count_signal sg t1 + count_signal sg t2)%nat.
Proof. unfold count_signal. rewrite List.filter_app. apply length_app. Qed.

Lemma update_emits_on_change (sg : signal) (now : float) (msg : option heartbeat)
  (s : vehicle) :
  count_signal sg (trace_of (update now msg s))
  = if flag_change sg s (state_of (update now msg s)) then 1%nat else 0%nat.
Proof.
  destruct msg as [m |].
  - rewrite update_heartbeat. unfold trace_of, state_of. cbn [fst snd].
    destruct s as [t c a k]. cbn [connected armed].
    destruct c, a, (armed_bit m), sg; reflexivity.
  - rewrite update_silence.
    destruct s as [[t0 |] [|] a k]; cbn [connected last_msg_time];
      try (destruct a, sg; reflexivity).
    destruct ((TIMEOUT <? now - t0)%float); destruct a, sg; reflexivity.
Qed.

Lemma command_emits_nothing (sg : signal) (c : call) (s : vehicle) :
  is_update c = false ->
  count_signal sg (trace_of (exec c s)) = 0%nat /\
  flag_change sg s (state_of (exec c s)) = false.
Proof.
  intros Hu. destruct (keeps_flags_command c Hu s) as (Hc & Ha & _ & Hf).
  split.
  - unfold count_signal. induction Hf as [| e tr He _ IH]; [ reflexivity | ].
    cbn [List.filter]. destruct e; try discriminate; exact IH.
  - unfold flag_change. rewrite Hc, Ha.
    destruct sg, (connected s), (armed s); reflexivity.
Qed.

Lemma exec_emits_on_change (sg : signal) (c : call) (s : vehicle) :
  count_signal sg (trace_of (exec c s))
  = if flag_change sg s (state_of (exec c s)) then 1%nat else 0%nat.
Proof.
  destruct (is_update c) eqn:Hu.
  - destruct c; try discriminate. apply update_emits_on_change.
  - destruct (command_emits_nothing sg c s Hu) as [-> ->]. reflexivity.
Qed.

Lemma run_emits_on_change (sg : signal) (cs : list call) :
  forall s, count_signal sg (snd (run cs s)) = changes sg cs s.
Proof.
  induction cs as [| c cs IH]; intros s; [ reflexivity | ].
  cbn [run changes snd]. rewrite count_signal_app, exec_emits_on_change, IH.
  reflexivity.
Qed.

(** C8: over any sequence of calls, each of the four signals is emitted
    once for every change of its flag in its direction and never
    otherwise; an [update] that leaves both flags as they were emits
    nothing.  From a disarmed state, a heartbeat with bit 0x80 of the mode
    set emits [armed] exactly once, and the same heartbeat received again
    right after emits nothing. *)
Theorem signals_once_per_change :
  (forall sg cs s, count_signal sg (snd (run cs s)) = changes sg cs s) /\
  (forall now msg s,
     connected (state_of (update now msg s)) = connected s ->
     armed (state_of (update now msg s)) = armed s ->
     trace_of (update now msg s) = []) /\
  (forall now now' m s,
     armed s = false -> Z.land (base_mode m) 128 = 128 ->
     count_signal armed_signal (trace_of (update now (Some m) s)) = 1%nat /\
     armed (state_of (update now (Some m) s)) = true /\
     trace_of (update now' (Some m) (state_of (update now (Some m) s))) = []).
Proof.
  split; [ | split ].
  - intros sg cs s. apply run_emits_on_change.
  - intros now [m |] s.
    + rewrite update_heartbeat. unfold state_of, trace_of. cbn [fst snd connected armed].
      intros <- ->. rewrite eqb_reflx. reflexivity.
    + rewrite update_silence.
      destruct (connected s) eqn:Hc; [ | reflexivity ].
      destruct (last_msg_time s) as [t0 |]; [ | reflexivity ].
      destruct ((TIMEOUT <? now - t0)%float); [ | reflexivity ].
      unfold state_of. cbn [fst snd set_connected connected]. discriminate.
  - intros now now' m s Ha Hm.
    assert (Hbit : armed_bit m = true).
    { unfold armed_bit. rewrite Hm. reflexivity. }
    rewrite !update_heartbeat. unfold state_of, trace_of.
    cbn [fst snd connected armed]. rewrite Ha, Hbit. cbn [Bool.eqb].
    split; [ | split; reflexivity ].
    destruct (connected s); reflexivity.
Qed.

Lemma signals_once_per_change_witness :
  let m := {| base_mode := 209 |} in
  let s := fst (run [Update 0 (Some {| base_mode := 81 |})] (init true)) in
  (armed s = false /\ Z.land (base_mode m) 128 = 128) /\
  (count_signal armed_signal (trace_of (update 1 (Some m) s)) = 1%nat /\
   armed (state_of (update 1 (Some m) s)) = true /\
   trace_of (update 2 (Some m) (state_of (update 1 (Some m) s))) = []).
Proof.
  intros m s. split; [ split; reflexivity | ].
  exact (proj2 (proj2 signals_once_per_change) 1%float 2%float m s eq_refl eq_refl).
Defined.

(** ** Connection and arming states *)

(** The state after a heartbeat with the armed bit and then three seconds
    without one. *)
Definition timed_out_while_armed : vehicle :=
  fst (run [Update 0 (Some {| base_mode := 209 |}); Update 3 None] (init true)).

(** C2, as stated, fails: the timeout transition clears [connected] and
    nothing else, so two [update] calls reach Disconnected-and-Armed. *)
Lemma disconnected_and_armed_reachable :
  reachable_by_updates timed_out_while_armed /\
  connected timed_out_while_armed = false /\
  armed timed_out_while_armed = true /\
  snd (run [Update 0 (Some {| base_mode := 209 |}); Update 3 None] (init true))
  = [Emit connected_signal; Emit armed_signal; Emit disconnected_signal].
Proof.
  split; [ | repeat split ].
  exists true, [Update 0 (Some {| base_mode := 209 |}); Update 3 None].
  split; reflexivity.
Qed.

(** Whoever holds a flag has seen a heartbeat. *)
Definition heard_from (s : vehicle) : Prop :=
  connected s = true \/ armed s = true -> last_msg_time s <> None.

Lemma exec_heard_from (c : call) (s : vehicle) :
  heard_from s -> heard_from (state_of (exec c s)).
Proof.
  intros Hs. destruct (is_update c) eqn:Hu.
  - destruct c as [now [m |] | | | | | | | ]; try discriminate; cbn [exec].
    + rewrite update_heartbeat. intros _. discriminate.
    + rewrite update_silence.
      destruct (connected s) eqn:Hc; [ | exact Hs ].
      destruct (last_msg_time s) as [t0 |] eqn:Ht; [ | exact Hs ].
      destruct ((TIMEOUT <? now - t0)%float); [ | exact Hs ].
      intros _. unfold state_of. cbn [fst snd set_connected last_msg_time].
      rewrite Ht. discriminate.
  - destruct (keeps_flags_command c Hu s) as (Hc & Ha & Ht & _).
    unfold heard_from. rewrite Hc, Ha, Ht. exact Hs.
Qed.

Lemma run_heard_from (cs : list call) :
  forall s, heard_from s -> heard_from (fst (run cs s)).
Proof.
  induction cs as [| c cs IH]; intros s Hs; [ exact Hs | ].
  cbn [run fst]. apply IH, exec_heard_from, Hs.
Qed.

Lemma reachable_heard_from (s : vehicle) : reachable s -> heard_from s.
Proof.
  intros (peer & cs & ->). apply run_heard_from.
  intros [H | H]; discriminate.
Qed.

(** C2, amended: in every reachable state [connected] or [armed] being
    true implies that a heartbeat has been received, so [update] never
    fails there; an [update] that receives a heartbeat leaves
    [connected = True]; and when [update] takes the timeout transition
    (connected and more than 2 seconds since the last message) it emits
    [disconnected], sets [connected = False] and leaves [armed] as it was. *)
Theorem timeout_clears_connected_only :
  (forall s, reachable s ->
     (connected s = true \/ armed s = true -> last_msg_time s <> None) /\
     (forall now msg, outcome_of (update now msg s) = Return tt)) /\
  (forall now m s, connected (state_of (update now (Some m) s)) = true) /\
  (forall now t0 s,
     connected s = true -> last_msg_time s = Some t0 ->
     (TIMEOUT <? now - t0)%float = true ->
     update now None s
     = (Return tt,
        {| last_msg_time := Some t0; connected := false;
           armed := armed s; socket := socket s |},
        [Emit disconnected_signal])).
Proof.
  split; [ | split ].
  - intros s Hs. pose proof (reachable_heard_from s Hs) as Hh.
    split; [ exact Hh | ].
    intros now [m |].
    + rewrite update_heartbeat. reflexivity.
    + rewrite update_silence.
      destruct (connected s) eqn:Hc; [ | reflexivity ].
      destruct (last_msg_time s) as [t0 |] eqn:Ht.
      * destruct ((TIMEOUT <? now - t0)%float); reflexivity.
      * exfalso. apply Hh; [ left; exact Hc | exact Ht ].
  - intros now m s. rewrite update_heartbeat. reflexivity.
  - intros now t0 s Hc Ht Hlate. rewrite update_silence, Hc, Ht.
    rewrite Hlate.
    unfold set_connected. rewrite Ht. reflexivity.
Qed.

Lemma timeout_clears_connected_only_witness :
  let s := fst (run [Update 0 (Some {| base_mode := 209 |})] (init true)) in
  (reachable s /\ connected s = true /\ last_msg_time s = Some 0%float /\
   (TIMEOUT <? 3 - 0)%float = true) /\
  (forall now msg, outcome_of (update now msg s) = Return tt) /\
  update 3 None s
  = (Return tt,
     {| last_msg_time := Some 0%float; connected := false;
        armed := armed s; socket := socket s |},
     [Emit disconnected_signal]).
Proof.
  intros s.
  assert (Hs : reachable s).
  { exists true, [Update 0 (Some {| base_mode := 209 |})]. reflexivity. }
  pose proof timeout_clears_connected_only as (Hinv & _ & Hout).
  split; [ | split ].
  - split; [ exact Hs | ]. repeat split.
  - exact (proj2 (Hinv s Hs)).
  - exact (Hout 3%float 0%float s eq_refl eq_refl eq_refl).
Defined.

(** * Further properties of the control link *)

(** ** From axis values to the packet *)

(** The dict that the loop of [set_rc_inputs] builds from in-range values. *)
Definition pwms_of (items : list (InputChannel * float)) (pwms : list (Z * Z))
  : list (Z * Z) :=
  fold_left
    (fun d cv => Py.dict_set (InputChannel_value (fst cv))
                             (clamp (Binary64.axis_round (snd cv))) d)
    items pwms.

Lemma inputs_loop_valid (items : list (InputChannel * float)) :
  forall (pwms : list (Z * Z)) (s : vehicle),
    Forall (fun cv => in_unit_range (snd cv)) items ->
    inputs_loop items pwms s = (Return (pwms_of items pwms), s, []).
Proof.
  induction items as [| [ch v] rest IH]; intros pwms s Hok; [ reflexivity | ].
  apply Forall_cons in Hok as [Hv Hrest]. cbn [snd] in Hv.
  cbn [inputs_loop]. unfold bind. rewrite (input_pwm_in_range v s Hv).
  rewrite (IH _ s Hrest). reflexivity.
Qed.

Lemma dict_set_keys (k v : Z) (d : list (Z * Z)) :
  forall k', In k' (map fst (Py.dict_set k v d)) <-> k' = k \/ In k' (map fst d).
Proof.
  induction d as [| [k0 v0] d IH]; intros k'; cbn [Py.dict_set map fst In].
  - intuition congruence.
  - destruct (Z.eqb_spec k0 k) as [-> | Hne]; cbn [map fst In].
    + intuition congruence.
    + rewrite IH. intuition congruence.
Qed.

Lemma dict_set_NoDup (k v : Z) (d : list (Z * Z)) :
  NoDup (map fst d) -> NoDup (map fst (Py.dict_set k v d)).
Proof.
  induction d as [| [k0 v0] d IH]; intros Hnd; cbn [Py.dict_set map fst].
  - apply NoDup_cons_2; [ apply not_elem_of_nil | apply NoDup_nil_2 ].
  - cbn [map fst] in Hnd. apply NoDup_cons in Hnd as [Hfresh Hnd].
    destruct (Z.eqb_spec k0 k) as [-> | Hne]; cbn [map fst].
    + apply NoDup_cons_2; assumption.
    + apply NoDup_cons_2; [ | apply IH, Hnd ].
      rewrite list_elem_of_In, dict_set_keys. rewrite list_elem_of_In in Hfresh.
      intros [Heq | Hin]; [ congruence | contradiction ].
Qed.

Lemma dict_set_valid (k v : Z) (d : list (Z * Z)) :
  valid_entry (k, v) -> Forall valid_entry d ->
  Forall valid_entry (Py.dict_set k v d).
Proof.
  intros Hkv. induction d as [| [k0 v0] d IH]; intros Hd; cbn [Py.dict_set].
  - apply Forall_cons. split; [ exact Hkv | apply Forall_nil_2 ].
  - apply Forall_cons in Hd as [H0 Hd].
    destruct (k0 =? k); apply Forall_cons; split; auto.
Qed.

(** Looking up after [d[k] = v]. *)
Lemma dict_set_lookup (k v : Z) (d : list (Z * Z)) :
  NoDup (map fst d) ->
  forall k' v', In (k', v') (Py.dict_set k v d) <->
                (k' = k /\ v' = v) \/ (k' <> k /\ In (k', v') d).
Proof.
  induction d as [| [k0 v0] d IH]; intros Hnd k' v'; cbn [Py.dict_set In].
  - split; [ intros [H | []]; inversion H; auto | intros [[-> ->] | [_ []]]; auto ].
  - cbn [map fst] in Hnd. apply NoDup_cons in Hnd as [Hfresh Hnd].
    rewrite list_elem_of_In in Hfresh.
    destruct (Z.eqb_spec k0 k) as [-> | Hne]; cbn [In].
    + split.
      * intros [H | H]; [ inversion H; auto | ].
        right. split; [ | auto ]. intros ->. apply Hfresh.
        apply in_map_iff. exists (k, v'). auto.
      * intros [[-> ->] | [Hk [H | H]]]; auto. inversion H; congruence.
    + rewrite (IH Hnd). split.
      * intros [H | [[-> ->] | [Hk H]]]; auto.
        inversion H; subst. right. split; auto.
      * intros [[-> ->] | [Hk [H | H]]]; auto.
Qed.

Lemma InputChannel_value_range (c : InputChannel) :
  1 <= InputChannel_value c <= 11.
Proof. destruct c; cbn; lia. Qed.

Lemma InputChannel_value_inj (c c' : InputChannel) :
  InputChannel_value c = InputChannel_value c' -> c = c'.
Proof. destruct c, c'; cbn; intros H; try reflexivity; discriminate H. Qed.

Lemma pwms_of_spec (items : list (InputChannel * float)) :
  forall pwms,
    Forall valid_entry pwms -> NoDup (map fst pwms) ->
    Forall valid_entry (pwms_of items pwms) /\
    NoDup (map fst (pwms_of items pwms)) /\
    (forall k, In k (map fst (pwms_of items pwms)) <->
               In k (map fst pwms) \/
               In k (map (fun cv => InputChannel_value (fst cv)) items)).
Proof.
  induction items as [| [ch v] rest IH]; intros pwms Hval Hnd;
    cbn [pwms_of fold_left map fst snd In].
  - repeat split; auto; tauto.
  - destruct (IH (Py.dict_set (InputChannel_value ch)
                    (clamp (Binary64.axis_round v)) pwms)) as (H1 & H2 & H3).
    + apply dict_set_valid; [ | exact Hval ].
      pose proof (InputChannel_value_range ch). pose proof (clamp_range (Binary64.axis_round v)).
      unfold valid_entry. cbn [fst snd]. lia.
    + apply dict_set_NoDup, Hnd.
    + split; [ exact H1 | ]. split; [ exact H2 | ].
      intros k. fold (pwms_of rest) in H3. unfold pwms_of in *.
      rewrite H3, dict_set_keys. cbn [fst]. intuition congruence.
Qed.

(** With distinct channels the dict is the list of values, mapped. *)
Lemma pwms_of_lookup (items : list (InputChannel * float)) :
  forall pwms,
    NoDup (map fst pwms) ->
    NoDup (map fst items) ->
    (forall ch, In ch (map fst items) -> ~ In (InputChannel_value ch) (map fst pwms)) ->
    forall ch v, In (ch, v) items ->
                 In (InputChannel_value ch, clamp (Binary64.axis_round v))
                    (pwms_of items pwms).
Proof.
  induction items as [| [ch0 v0] rest IH]; intros pwms Hnd Hnd' Hfresh ch v Hin;
    [ destruct Hin | ].
  cbn [map fst] in Hnd'. apply NoDup_cons in Hnd' as [Hnew Hnd'].
  rewrite list_elem_of_In in Hnew.
  cbn [pwms_of fold_left fst snd]. fold (pwms_of rest).
  set (d := Py.dict_set (InputChannel_value ch0) (clamp (Binary64.axis_round v0)) pwms).
  assert (Hd : NoDup (map fst d)) by (apply dict_set_NoDup, Hnd).
  destruct Hin as [Heq | Hin].
  - inversion Heq; subst ch0 v0. clear Heq.
    (* the entry is set now and no later channel overwrites it *)
    assert (Hkeep : forall items' d',
               ~ In ch (map fst items') -> NoDup (map fst d') ->
               In (InputChannel_value ch, clamp (Binary64.axis_round v)) d' ->
               In (InputChannel_value ch, clamp (Binary64.axis_round v))
                  (pwms_of items' d')).
    { induction items' as [| [c1 v1] items' IH']; intros d' Hnot Hd' Hin'; [ exact Hin' | ].
      cbn [pwms_of fold_left fst snd]. fold (pwms_of items').
      apply IH'.
      - cbn [map fst In] in Hnot. tauto.
      - apply dict_set_NoDup, Hd'.
      - apply dict_set_lookup; [ exact Hd' | ]. right. split; [ | exact Hin' ].
        intros Heq. apply InputChannel_value_inj in Heq. subst c1.
        apply Hnot. left. reflexivity. }
    apply Hkeep; [ exact Hnew | exact Hd | ].
    apply dict_set_lookup; [ exact Hnd | ]. left. split; reflexivity.
  - apply IH; auto.
    intros ch' Hch'. subst d. rewrite dict_set_keys. intros [Heq | Hold].
    + apply InputChannel_value_inj in Heq. subst ch'. contradiction.
    + apply (Hfresh ch'); [ right; exact Hch' | exact Hold ].
Qed.

(** X1: with distinct channels and every value in [-1, 1], a connected
    and armed [set_rc_inputs] transmits exactly one packet of 18 slots:
    the slot of each given channel holds the PWM computed from its value,
    which lies in [1100, 1900], and every other slot holds 65535. *)
Theorem set_rc_inputs_packet
  (values : list (InputChannel * float)) (s : vehicle) :
  NoDup (map fst values) ->
  Forall (fun cv => in_unit_range (snd cv)) values ->
  connected s = true -> armed s = true ->
  exists chans,
    set_rc_inputs values s
    = (Return tt, s, [LinkSend (RcChannelsOverride chans)]) /\
    length chans = 18%nat /\
    (forall channel v,
        In (channel, v) values ->
        exists pwm,
          input_pwm v s = (Return pwm, s, []) /\ 1100 <= pwm <= 1900 /\
          chans !! Z.to_nat (InputChannel_value channel - 1) = Some pwm) /\
    (forall channel_id,
        1 <= channel_id <= 18 ->
        (forall channel, In channel (map fst values) ->
                         InputChannel_value channel <> channel_id) ->
        chans !! Z.to_nat (channel_id - 1) = Some 65535).
Proof.
  intros Hnd Hok Hc Ha.
  destruct (pwms_of_spec values [] (Forall_nil_2 _) (NoDup_nil_2)) as (Hval & Hnd' & Hkeys).
  destruct (override_loop_valid (pwms_of values []) (replicate 18 65535) s)
    as (chans & Hrun & Hlen & Hset & Hkeep);
    [ apply length_replicate | exact Hval | exact Hnd' | ].
  exists chans. split; [ | split; [ exact Hlen | split ] ].
  - unfold set_rc_inputs, bind. rewrite (inputs_loop_valid values [] s Hok).
    unfold set_rc_input_pwms, bind, gets, is_connected, is_armed. cbn beta iota.
    rewrite Hc, Ha. cbn [negb orb]. rewrite Hrun. reflexivity.
  - intros ch v Hin. exists (clamp (Binary64.axis_round v)).
    assert (Hv : in_unit_range v).
    { rewrite Forall_forall in Hok. apply (Hok (ch, v)).
      apply list_elem_of_In, Hin. }
    split; [ apply input_pwm_in_range, Hv | ].
    split; [ apply clamp_range | ].
    apply Hset. apply pwms_of_lookup; auto using NoDup_nil_2.
  - intros c Hc18 Hfree. rewrite Hkeep; [ | lia | ].
    + apply lookup_replicate_2. lia.
    + rewrite Hkeys. intros [[] | Hin].
      apply in_map_iff in Hin as ([ch v] & Heq & Hin). cbn [fst] in Heq.
      apply (Hfree ch); [ | exact Heq ].
      apply in_map_iff. exists (ch, v). auto.
Qed.

Lemma set_rc_inputs_packet_witness :
  let values := [(FORWARD, 0.5%float); (YAW, (-0.25)%float)] in
  (NoDup (map fst values) /\
   Forall (fun cv => in_unit_range (snd cv)) values /\
   connected connected_and_armed = true /\ armed connected_and_armed = true) /\
  exists chans,
    set_rc_inputs values connected_and_armed
    = (Return tt, connected_and_armed, [LinkSend (RcChannelsOverride chans)]) /\
    chans !! 4%nat = Some 1700 /\ chans !! 3%nat = Some 1400.
Proof.
  intros values.
  assert (Hnd : NoDup (map fst values)).
  { simpl. repeat (apply NoDup_cons_2;
      [ rewrite list_elem_of_In; simpl; intuition discriminate | ]).
    apply NoDup_nil_2. }
  assert (Hok : Forall (fun cv => in_unit_range (snd cv)) values).
  { repeat (apply Forall_cons; split; [ split; reflexivity | ]).
    apply Forall_nil_2. }
  split; [ repeat split; assumption | ].
  destruct (set_rc_inputs_packet values connected_and_armed Hnd Hok eq_refl eq_refl)
    as (chans & Hrun & _). exists chans.
  split; [ exact Hrun | ].
  vm_compute in Hrun. injection Hrun as Hch. subst chans.
  split; reflexivity.
Defined.

(** X2: whatever the mapping and the state, [set_rc_inputs] either raises
    the [ValueError] of a value outside [-1, 1], or returns normally with
    the object unchanged, having sent nothing (gate closed) or one
    override packet (gate open).  The channel and PWM checks of
    [set_rc_input_pwms] never fire on what [set_rc_inputs] passes down. *)
Theorem set_rc_inputs_outcomes
  (values : list (InputChannel * float)) (s : vehicle) :
  (exists v, In v (map snd values) /\ ~ in_unit_range v /\
             set_rc_inputs values s = (Raise (InputOutOfRange v), s, [])) \/
  (Forall (fun cv => in_unit_range (snd cv)) values /\
   if connected s && armed s
   then exists chans,
          length chans = 18%nat /\
          set_rc_inputs values s
          = (Return tt, s, [LinkSend (RcChannelsOverride chans)])
   else set_rc_inputs values s = (Return tt, s, [])).
Proof.
  assert (Hdec : forall cv : InputChannel * float,
             {in_unit_range (snd cv)} + {~ in_unit_range (snd cv)}).
  { intros [ch v]. cbn [snd].
    destruct ((-1 <=? v) && (v <=? 1))%float eqn:E.
    - left. apply range_check, E.
    - right. intros H. apply range_check in H. congruence. }
  destruct (Forall_Exists_dec _ _ Hdec values) as [Hok | Hbad].
  - right. split; [ exact Hok | ].
    destruct (pwms_of_spec values [] (Forall_nil_2 _) (NoDup_nil_2)) as (Hval & Hnd' & _).
    unfold set_rc_inputs, bind. rewrite (inputs_loop_valid values [] s Hok).
    unfold set_rc_input_pwms, bind, gets, is_connected, is_armed. cbn beta iota.
    destruct (connected s), (armed s); cbn [negb orb andb]; try reflexivity.
    destruct (override_loop_valid (pwms_of values []) (replicate 18 65535) s)
      as (chans & Hrun & Hlen & _);
      [ apply length_replicate | exact Hval | exact Hnd' | ].
    exists chans. split; [ exact Hlen | ]. rewrite Hrun. reflexivity.
  - left. destruct (inputs_loop_invalid values [] s Hbad) as (v & Hin & Hv & Hrun).
    exists v. split; [ exact Hin | ]. split; [ exact Hv | ].
    unfold set_rc_inputs, bind. rewrite Hrun. reflexivity.
Qed.

(** X3: in every state [stop_thrusters] returns normally and leaves the
    object unchanged; when connected and armed it sends one packet with
    PWM 1500 on the six motion channels (pitch, roll, throttle, yaw,
    forward, lateral) and 65535 on the other twelve, otherwise it sends
    nothing; it logs in both cases. *)
Theorem stop_thrusters_neutral (s : vehicle) :
  stop_thrusters s
  = (Return tt, s,
     (if connected s && armed s
      then [LinkSend (RcChannelsOverride
                        (replicate 6 1500 ++ replicate 12 65535))]
      else [])
     ++ [Log DebugThrustersStopped]).
Proof.
  destruct s as [t [|] [|] k]; vm_compute; reflexivity.
Qed.

(** X4: an empty mapping is not an error: when connected and armed,
    [set_rc_input_pwms] and [set_rc_inputs] on an empty mapping still
    transmit a packet, all 18 slots 65535; otherwise they do nothing. *)
Theorem empty_mapping_sends_all_ignore (s : vehicle) :
  set_rc_input_pwms [] s
  = (Return tt, s,
     if connected s && armed s
     then [LinkSend (RcChannelsOverride (replicate 18 65535))] else []) /\
  set_rc_inputs [] s = set_rc_input_pwms [] s.
Proof.
  destruct s as [t [|] [|] k]; split; reflexivity.
Qed.

Lemma override_loop_app (pre : list (Z * Z)) :
  forall (rest : list (Z * Z)) (vals : list Z) (s : vehicle),
    length vals = 18%nat -> Forall valid_entry pre ->
    exists vals',
      length vals' = 18%nat /\
      override_loop (pre ++ rest) vals s = override_loop rest vals' s.
Proof.
  induction pre as [| [c p] pre IH]; intros rest vals s Hlen Hval.
  - exists vals. split; [ exact Hlen | reflexivity ].
  - apply Forall_cons in Hval as [[Hc Hp] Hval]. cbn [fst snd] in Hc, Hp.
    cbn [app override_loop].
    replace (c <? 1) with false by (symmetry; apply Z.ltb_ge; lia).
    replace (c >? 18) with false
      by (symmetry; rewrite Z.gtb_ltb; apply Z.ltb_ge; lia).
    replace (1100 <=? p) with true by (symmetry; apply Z.leb_le; lia).
    replace (p <=? 1900) with true by (symmetry; apply Z.leb_le; lia).
    cbn [orb andb negb]. rewrite setitem_in_range by lia.
    apply IH; [ now rewrite length_insert | exact Hval ].
Qed.

(** X5: when connected and armed, [set_rc_input_pwms] raises for the
    first entry (in the order of the dict) that is out of range, after any
    number of valid entries and whatever follows; the channel id is
    checked before the PWM, so an entry wrong in both raises the channel
    error.  Nothing is transmitted. *)
Theorem set_rc_input_pwms_first_error
  (pre post : list (Z * Z)) (channel_id pwm : Z) (s : vehicle) :
  connected s = true -> armed s = true ->
  Forall valid_entry pre ->
  ~ valid_entry (channel_id, pwm) ->
  set_rc_input_pwms (pre ++ (channel_id, pwm) :: post) s
  = (Raise (if (channel_id <? 1) || (channel_id >? 18)
            then ChannelIdDoesNotExist channel_id
            else PwmOutOfRange pwm),
     s, []).
Proof.
  intros Hc Ha Hpre Hbad.
  unfold set_rc_input_pwms, bind, gets, is_connected, is_armed. cbn beta iota.
  rewrite Hc, Ha. cbn [negb orb].
  destruct (override_loop_app pre ((channel_id, pwm) :: post)
              (replicate 18 65535) s) as (vals' & Hlen & ->);
    [ apply length_replicate | exact Hpre | ].
  cbn [override_loop].
  destruct ((channel_id <? 1) || (channel_id >? 18)) eqn:Hch; [ reflexivity | ].
  destruct (negb ((1100 <=? pwm) && (pwm <=? 1900))) eqn:Hp; [ reflexivity | ].
  exfalso. apply Hbad.
  apply orb_false_elim in Hch as [H1 H2].
  apply Z.ltb_ge in H1. rewrite Z.gtb_ltb in H2. apply Z.ltb_ge in H2.
  apply negb_false_iff, andb_prop in Hp as [H3 H4].
  apply Z.leb_le in H3, H4. unfold valid_entry. cbn [fst snd]. lia.
Qed.

Lemma set_rc_input_pwms_first_error_witness :
  (connected connected_and_armed = true /\ armed connected_and_armed = true /\
   Forall valid_entry [(3, 1500)] /\ ~ valid_entry (19, 5000)) /\
  set_rc_input_pwms ([(3, 1500)] ++ (19, 5000) :: [(0, 1200)]) connected_and_armed
  = (Raise (ChannelIdDoesNotExist 19), connected_and_armed, []).
Proof.
  assert (H1 : Forall valid_entry [(3, 1500)]).
  { apply Forall_cons. split; [ unfold valid_entry; simpl; lia | apply Forall_nil_2 ]. }
  assert (H2 : ~ valid_entry (19, 5000)).
  { unfold valid_entry. simpl. lia. }
  split; [ repeat split; assumption | ].
  exact (set_rc_input_pwms_first_error [(3, 1500)] [(0, 1200)] 19 5000
           connected_and_armed eq_refl eq_refl H1 H2).
Defined.

(** ** The relay channel *)

(** X6: every message that [set_relay] hands to the relay socket is the
    pair [[pin, state]]: two bytes, each in [range(256)], the second 0 or
    1; and the pin identifies the relay, distinct relays having distinct
    pins. *)
Theorem relay_message_format :
  (forall relay state s payload,
      In (SockSendall payload) (trace_of (set_relay relay state s)) ->
      payload = [Relay_value relay; Z.b2z state] /\
      length payload = 2%nat /\
      Forall (fun b => 0 <= b < 256) payload /\
      0 <= Relay_value relay <= 5) /\
  (forall relay relay', Relay_value relay = Relay_value relay' -> relay = relay').
Proof.
  split.
  - intros relay state s payload. rewrite set_relay_spec.
    destruct (connected s && (armed s || negb state)); [ | intros [] ].
    unfold trace_of. cbn [snd].
    assert (Hpin : 0 <= Relay_value relay <= 5) by (destruct relay; cbn; lia).
    intros [H | [H | H]]; try discriminate H.
    + inversion H; subst payload. repeat split; try lia.
      repeat (apply Forall_cons; split; [ destruct state; cbn; lia | ]).
      apply Forall_nil_2.
    + destruct (established (socket s)); [ destruct H | ].
      destruct H as [H | []]. discriminate H.
  - intros r r'. destruct r, r'; cbn; intros H; try reflexivity; discriminate H.
Qed.

(** A computation that leaves the whole object as it was. *)
Definition keeps_state {A} (m : M A) : Prop := forall s, state_of (m s) = s.

Lemma keeps_state_ret {A} (a : A) : keeps_state (ret a).
Proof. intros s. reflexivity. Qed.

Lemma keeps_state_raise {A} (e : exn) : keeps_state (@raise A e).
Proof. intros s. reflexivity. Qed.

Lemma keeps_state_gets {A} (f : vehicle -> A) : keeps_state (gets f).
Proof. intros s. reflexivity. Qed.

Lemma keeps_state_tell (ev : event) : keeps_state (tell ev).
Proof. intros s. reflexivity. Qed.

Lemma keeps_state_bind {A B} (m : M A) (k : A -> M B) :
  keeps_state m -> (forall a, keeps_state (k a)) -> keeps_state (bind m k).
Proof.
  intros Hm Hk s. unfold bind. specialize (Hm s).
  destruct (m s) as [[[a | e] s1] t1]; unfold state_of in *; cbn [fst snd] in *;
    [ | exact Hm ].
  specialize (Hk a s1). destruct (k a s1) as [[r s2] t2].
  unfold state_of in Hk. cbn [fst snd] in *. congruence.
Qed.

Lemma keeps_state_try {A} (m : M A) (h : exn -> M A) :
  keeps_state m -> (forall e, keeps_state (h e)) -> keeps_state (try_except m h).
Proof.
  intros Hm Hh s. unfold try_except. specialize (Hm s).
  destruct (m s) as [[[a | e] s1] t1]; unfold state_of in *; cbn [fst snd] in *;
    [ exact Hm | ].
  specialize (Hh e s1). destruct (h e s1) as [[r s2] t2].
  unfold state_of in Hh. cbn [fst snd] in *. congruence.
Qed.

Lemma keeps_state_for_each {A} (l : list A) (body : A -> M unit) :
  (forall x, keeps_state (body x)) -> keeps_state (for_each l body).
Proof.
  intros Hbody. induction l as [| x l IH]; cbn [for_each].
  - apply keeps_state_ret.
  - apply keeps_state_bind; [ apply Hbody | intros _; exact IH ].
Qed.

Ltac still_step :=
  first
    [ apply keeps_state_bind; [ | intros ? ]
    | apply keeps_state_try; [ | intros ? ]
    | apply keeps_state_for_each; intros ?
    | apply keeps_state_tell
    | apply keeps_state_ret
    | apply keeps_state_raise
    | apply keeps_state_gets
    | assumption
    | match goal with
      | |- keeps_state (if ?b then _ else _) => destruct b
      | |- keeps_state (match ?x with _ => _ end) => destruct x
      end ].

Ltac still := repeat still_step.

Lemma keeps_state_override_loop (items : list (Z * Z)) :
  forall vals, keeps_state (override_loop items vals).
Proof.
  induction items as [| [c p] rest IH]; intros vals; cbn [override_loop]; still.
  apply IH.
Qed.

Lemma keeps_state_set_rc_input_pwms (pwms : list (Z * Z)) :
  keeps_state (set_rc_input_pwms pwms).
Proof. unfold set_rc_input_pwms. still. apply keeps_state_override_loop. Qed.

Lemma keeps_state_inputs_loop (items : list (InputChannel * float)) :
  forall pwms, keeps_state (inputs_loop items pwms).
Proof.
  induction items as [| [ch v] rest IH]; intros pwms; cbn [inputs_loop].
  - still.
  - apply keeps_state_bind; [ unfold input_pwm; still | intros ?; apply IH ].
Qed.

Lemma keeps_state_set_rc_inputs (values : list (InputChannel * float)) :
  keeps_state (set_rc_inputs values).
Proof.
  unfold set_rc_inputs.
  apply keeps_state_bind;
    [ apply keeps_state_inputs_loop
    | intros ?; apply keeps_state_set_rc_input_pwms ].
Qed.

Lemma keeps_state_set_relay (relay : Relay) (state : bool) :
  keeps_state (set_relay relay state).
Proof. intros s. rewrite set_relay_spec. destruct (_ && _); reflexivity. Qed.

Definition is_arm (c : call) : bool :=
  match c with Arm => true | _ => false end.

Lemma keeps_state_command (c : call) :
  is_update c = false -> is_arm c = false -> keeps_state (exec c).
Proof.
  destruct c; cbn [is_update is_arm exec]; intros Hu Ha; try discriminate.
  - unfold disarm. apply keeps_state_bind;
      [ apply keeps_state_for_each; intros r; apply keeps_state_set_relay
      | intros ?; still ].
  - apply keeps_state_set_rc_input_pwms.
  - apply keeps_state_set_rc_inputs.
  - unfold stop_thrusters.
    apply keeps_state_bind; [ apply keeps_state_set_rc_inputs | intros ?; still ].
  - apply keeps_state_set_relay.
  - apply keeps_state_for_each. intros r. apply keeps_state_set_relay.
Qed.

Lemma update_socket (now : float) (msg : option heartbeat) (s : vehicle) :
  socket (state_of (update now msg s)) = socket s.
Proof.
  destruct msg as [m |].
  - rewrite update_heartbeat. reflexivity.
  - rewrite update_silence.
    destruct (connected s); [ | reflexivity ].
    destruct (last_msg_time s) as [t0 |]; [ | reflexivity ].
    destruct (TIMEOUT <? now - t0)%float; reflexivity.
Qed.

(** X7: every command other than [arm] ([disarm], [set_rc_input_pwms],
    [set_rc_inputs], [stop_thrusters], [set_relay], [turn_off_relays])
    leaves every field of the object as it was, whether it returns or
    raises; and no call but [arm] touches the relay socket, so over any
    calls without an [arm] the socket stays as it is: a connection that
    does not stand is not retried by sending. *)
Theorem only_arm_touches_relay_socket :
  (forall c s, is_update c = false -> is_arm c = false ->
               state_of (exec c s) = s) /\
  (forall cs s, forallb (fun c => negb (is_arm c)) cs = true ->
                socket (fst (run cs s)) = socket s).
Proof.
  split.
  - intros c s Hu Ha. apply keeps_state_command; assumption.
  - induction cs as [| c cs IH]; intros s Hcs; [ reflexivity | ].
    cbn [forallb] in Hcs. apply andb_prop in Hcs as [Hc Hcs].
    apply negb_true_iff in Hc. cbn [run fst]. rewrite (IH _ Hcs).
    destruct (is_update c) eqn:Hu.
    + destruct c; try discriminate. cbn [exec]. apply update_socket.
    + rewrite (keeps_state_command c Hu Hc s). reflexivity.
Qed.

Lemma only_arm_touches_relay_socket_witness :
  let cs := [Update 0 (Some {| base_mode := 209 |}); SetRelay MAGNET true;
             Disarm; Update 3 None; StopThrusters] in
  (is_update Disarm = false /\ is_arm Disarm = false /\
   state_of (exec Disarm connected_and_armed) = connected_and_armed) /\
  (forallb (fun c => negb (is_arm c)) cs = true /\
   socket (fst (run cs (init true))) = socket (init true)).
Proof.
  intros cs. pose proof only_arm_touches_relay_socket as [Hcmd Hrun].
  split.
  - split; [ reflexivity | ]. split; [ reflexivity | ].
    exact (Hcmd Disarm connected_and_armed eq_refl eq_refl).
  - split; [ reflexivity | ]. exact (Hrun cs (init true) eq_refl).
Defined.

Definition is_send_error (e : event) : bool :=
  match e with Log (ErrorSocketSend _) => true | _ => false end.

(** X8: [turn_off_relays] never raises and, while connected, hands an off
    message to the socket for each of the six relays, in the order of the
    enumeration (pins 1, 4, 2, 3, 0, 5), whatever [armed] is and also when
    sends fail: a failure is logged and does not stop the loop.  While
    disconnected it sends nothing. *)
Theorem turn_off_relays_attempts_all (s : vehicle) :
  outcome_of (turn_off_relays s) = Return tt /\
  List.filter is_relay_message (trace_of (turn_off_relays s))
  = (if connected s
     then [SockSendall [1; 0]; SockSendall [4; 0]; SockSendall [2; 0];
           SockSendall [3; 0]; SockSendall [0; 0]; SockSendall [5; 0]]
     else []) /\
  length (List.filter is_send_error (trace_of (turn_off_relays s)))
  = (if connected s && negb (established (socket s)) then 6%nat else 0%nat).
Proof.
  rewrite turn_off_relays_spec. unfold outcome_of, trace_of. cbn [fst snd].
  unfold Relay_members, relay_off_trace. cbn [flat_map].
  destruct (connected s), (established (socket s)); repeat split.
Qed.

(** ** Heartbeats and timeouts *)

(** X9: an [update] that receives no message while connected, with the
    time since the last message not above the 2 seconds of [TIMEOUT],
    changes nothing and emits nothing; the comparison is strict, so
    exactly 2 seconds is not a timeout. *)
Theorem update_within_timeout (now t0 : float) (s : vehicle) :
  connected s = true -> last_msg_time s = Some t0 ->
  (TIMEOUT <? now - t0)%float = false ->
  update now None s = (Return tt, s, []).
Proof.
  intros Hc Ht Hin. rewrite update_silence, Hc, Ht, Hin. reflexivity.
Qed.

Lemma update_within_timeout_witness :
  let s := fst (run [Update 10 (Some {| base_mode := 81 |})] (init true)) in
  (connected s = true /\ last_msg_time s = Some 10%float /\
   (TIMEOUT <? 12 - 10)%float = false) /\
  update 12 None s = (Return tt, s, []).
Proof.
  intros s. split; [ repeat split | ].
  exact (update_within_timeout 12 10 s eq_refl eq_refl eq_refl).
Defined.

(** X10: while disconnected, [update] calls without a message do
    nothing, however many and whatever the clock reads: after a loss of
    the link, [disconnected] is not emitted again. *)
Theorem silent_updates_while_disconnected (s : vehicle) (nows : list float) :
  connected s = false ->
  run (map (fun now => Update now None) nows) s = (s, []).
Proof.
  intros Hc. induction nows as [| now nows IH]; [ reflexivity | ].
  cbn [map run exec]. rewrite update_silence, Hc.
  unfold state_of, trace_of. cbn [fst snd]. rewrite IH. reflexivity.
Qed.

Lemma silent_updates_while_disconnected_witness :
  connected timed_out_while_armed = false /\
  run (map (fun now => Update now None) [4; 5; 100]%float) timed_out_while_armed
  = (timed_out_while_armed, []).
Proof.
  split; [ reflexivity | ].
  exact (silent_updates_while_disconnected timed_out_while_armed
           [4; 5; 100]%float eq_refl).
Defined.

(** X11: the timeout runs from the latest heartbeat.  After an [update]
    that received a heartbeat at time [now], in whatever state, a silent
    [update] at time [now'] disconnects, emitting [disconnected] once,
    exactly when [now' - now > 2]; otherwise it does nothing. *)
Theorem heartbeat_restarts_timeout
  (now now' : float) (m : heartbeat) (s : vehicle) :
  let s1 := state_of (update now (Some m) s) in
  last_msg_time s1 = Some now /\ connected s1 = true /\
  update now' None s1
  = if (TIMEOUT <? now' - now)%float
    then (Return tt, set_connected false s1, [Emit disconnected_signal])
    else (Return tt, s1, []).
Proof.
  intros s1. subst s1. rewrite update_heartbeat.
  unfold state_of. cbn [fst snd]. split; [ reflexivity | ].
  split; [ reflexivity | ]. rewrite update_silence. reflexivity.
Qed.

Lemma land_128 (x : Z) : Z.land x 128 = if Z.testbit x 7 then 128 else 0.
Proof.
  apply Z.bits_inj'. intros n Hn.
  rewrite Z.land_spec. change 128 with (2 ^ 7).
  rewrite Z.pow2_bits_eqb by lia.
  destruct (Z.eqb_spec 7 n) as [<- | Hne].
  - rewrite andb_true_r. destruct (Z.testbit x 7) eqn:E.
    + rewrite Z.pow2_bits_true; lia.
    + rewrite Z.bits_0. reflexivity.
  - rewrite andb_false_r. destruct (Z.testbit x 7).
    + rewrite Z.pow2_bits_false; lia.
    + rewrite Z.bits_0. reflexivity.
Qed.

Lemma armed_bit_testbit (m : heartbeat) : armed_bit m = Z.testbit (base_mode m) 7.
Proof.
  unfold armed_bit. rewrite land_128.
  destruct (Z.testbit (base_mode m) 7); reflexivity.
Qed.

(** X12: losing the link while armed and finding it again.  From a
    connected and armed state, a timeout followed by a heartbeat emits
    [disconnected], then [connected], and then [disarmed] only if the
    heartbeat's armed bit is clear: [connected] comes before the arming
    signal, and a vehicle that is still armed gives no new [armed]
    signal. *)
Theorem link_loss_and_recovery
  (t0 now now' : float) (m : heartbeat) (s : vehicle) :
  connected s = true -> armed s = true -> last_msg_time s = Some t0 ->
  (TIMEOUT <? now - t0)%float = true ->
  snd (run [Update now None; Update now' (Some m)] s)
  = [Emit disconnected_signal; Emit connected_signal]
    ++ (if Z.testbit (base_mode m) 7 then [] else [Emit disarmed_signal]) /\
  connected (fst (run [Update now None; Update now' (Some m)] s)) = true /\
  armed (fst (run [Update now None; Update now' (Some m)] s))
  = Z.testbit (base_mode m) 7.
Proof.
  intros Hc Ha Ht Hlate. cbn [run exec fst snd].
  rewrite update_silence, Hc, Ht, Hlate.
  unfold state_of, trace_of. cbn [fst snd].
  rewrite update_heartbeat. cbn [fst snd set_connected connected armed].
  rewrite Ha, armed_bit_testbit.
  destruct (Z.testbit (base_mode m) 7); repeat split.
Qed.

Lemma link_loss_and_recovery_witness :
  (connected connected_and_armed = true /\ armed connected_and_armed = true /\
   last_msg_time connected_and_armed = Some 0%float /\
   (TIMEOUT <? 3 - 0)%float = true) /\
  snd (run [Update 3 None; Update 4 (Some {| base_mode := 209 |})]
           connected_and_armed)
  = [Emit disconnected_signal; Emit connected_signal] /\
  snd (run [Update 3 None; Update 4 (Some {| base_mode := 81 |})]
           connected_and_armed)
  = [Emit disconnected_signal; Emit connected_signal; Emit disarmed_signal].
Proof.
  split; [ repeat split | ]. split.
  - exact (proj1 (link_loss_and_recovery 0 3 4 {| base_mode := 209 |}
                    connected_and_armed eq_refl eq_refl eq_refl eq_refl)).
  - exact (proj1 (link_loss_and_recovery 0 3 4 {| base_mode := 81 |}
                    connected_and_armed eq_refl eq_refl eq_refl eq_refl)).
Defined.

(** X13: after an [update] that received a heartbeat, [armed] is bit 7
    of the heartbeat's [base_mode], whatever the other bits and the
    earlier state are. *)
Theorem armed_is_bit_7 (now : float) (m : heartbeat) (s : vehicle) :
  is_armed (state_of (update now (Some m) s)) = Z.testbit (base_mode m) 7.
Proof.
  rewrite update_heartbeat. unfold is_armed, state_of. cbn [fst snd armed].
  apply armed_bit_testbit.
Qed.

(** ** More on the axis mapping *)

Lemma rne_unique (a d r : Z) :
  0 < d ->
  2 * d * r - d <= 2 * a <= 2 * d * r + d ->
  (2 * a = 2 * d * r + d \/ 2 * a = 2 * d * r - d -> Z.even r = true) ->
  r = Py.rne a d.
Proof.
  intros Hd Hr Hev.
  destruct (Binary64.rne_nearest a d Hd) as [H0 Hev0].
  set (r0 := Py.rne a d) in *.
  assert (Hclose : r0 - 1 <= r <= r0 + 1) by nia.
  destruct (Z.eq_dec r r0) as [Heq | Hne]; [ exact Heq | exfalso ].
  assert (Hcase : r = r0 + 1 \/ r = r0 - 1) by lia.
  destruct Hcase as [-> | ->].
  - assert (Ht : 2 * a = 2 * d * r0 + d) by nia.
    specialize (Hev0 (or_introl Ht)).
    assert (Ht' : 2 * a = 2 * d * (r0 + 1) - d) by lia.
    specialize (Hev (or_intror Ht')).
    replace (r0 + 1) with (Z.succ r0) in Hev by lia.
    rewrite Z.even_succ, <- Z.negb_even, Hev0 in Hev. discriminate.
  - assert (Ht : 2 * a = 2 * d * r0 - d) by nia.
    specialize (Hev0 (or_intror Ht)).
    assert (Ht' : 2 * a = 2 * d * (r0 - 1) + d) by lia.
    specialize (Hev (or_introl Ht')).
    replace (r0 - 1) with (Z.pred r0) in Hev by lia.
    rewrite Z.even_pred, <- Z.negb_even, Hev0 in Hev. discriminate.
Qed.

Lemma rne_opp (a d : Z) : 0 < d -> Py.rne (- a) d = - Py.rne a d.
Proof.
  intros Hd. symmetry. apply rne_unique; [ exact Hd | | ];
    destruct (Binary64.rne_nearest a d Hd) as [H0 Hev0].
  - nia.
  - intros Ht. rewrite Z.even_opp. apply Hev0. lia.
Qed.

Lemma rne_add_even (a d k : Z) :
  0 < d -> Z.even k = true -> Py.rne (a + k * d) d = Py.rne a d + k.
Proof.
  intros Hd Hk. symmetry. apply rne_unique; [ exact Hd | | ];
    destruct (Binary64.rne_nearest a d Hd) as [H0 Hev0].
  - nia.
  - intros Ht. rewrite Z.even_add, Hk, Hev0; [ reflexivity | nia ].
Qed.

Lemma rne_reflect (a d k : Z) :
  0 < d -> Z.even k = true -> Py.rne (k * d - a) d = k - Py.rne a d.
Proof.
  intros Hd Hk. replace (k * d - a) with (- a + k * d) by lia.
  rewrite rne_add_even, rne_opp by assumption. lia.
Qed.

Lemma SFleb_opp (x y : spec_float) : SFleb (SFopp x) (SFopp y) = SFleb y x.
Proof.
  unfold SFleb.
  destruct x as [sx | sx | | sx mx ex], y as [sy | sy | | sy my ey];
    cbn [SFopp SFcompare]; try reflexivity;
    try (destruct sx; reflexivity); try (destruct sy; reflexivity);
    try (destruct sx, sy; reflexivity).
  destruct sx, sy; cbn [negb]; try reflexivity.
  - rewrite (Z.compare_antisym ey ex).
    destruct (ey ?= ex); cbn [CompOpp]; try reflexivity.
    fold (Pos.compare mx my). fold (Pos.compare my mx).
    rewrite (Pos.compare_antisym my mx). destruct (my ?= mx)%positive; reflexivity.
  - rewrite (Z.compare_antisym ey ex).
    destruct (ey ?= ex); cbn [CompOpp]; try reflexivity.
    fold (Pos.compare mx my). fold (Pos.compare my mx).
    rewrite (Pos.compare_antisym my mx). destruct (my ?= mx)%positive; reflexivity.
Qed.

Lemma in_unit_range_opp (v : float) : in_unit_range v -> in_unit_range (- v)%float.
Proof.
  intros [Hlo Hhi]. unfold in_unit_range.
  rewrite !leb_spec, opp_spec in *.
  rewrite Binary64.Prim2SF_m1, Binary64.Prim2SF_1 in *.
  split.
  - change (S754_finite true 4503599627370496 (-52))
      with (SFopp (S754_finite false 4503599627370496 (-52))).
    rewrite SFleb_opp. exact Hhi.
  - change (S754_finite false 4503599627370496 (-52))
      with (SFopp (S754_finite true 4503599627370496 (-52))).
    rewrite SFleb_opp. exact Hlo.
Qed.

Lemma Zval_opp (x : spec_float) : Binary64.Zval (SFopp x) = - Binary64.Zval x.
Proof.
  destruct x as [s | s | | s m e]; try reflexivity.
  cbn [SFopp Binary64.Zval]. destruct s; cbn [negb cond_Zopp]; lia.
Qed.

Lemma signed400_opp (X : Z) : Binary64.signed400 (- X) = - Binary64.signed400 X.
Proof.
  unfold Binary64.signed400.
  destruct (Z.ltb_spec 0 X), (Z.ltb_spec 0 (- X)), (Z.ltb_spec X 0),
    (Z.ltb_spec (- X) 0); try lia; rewrite ?Z.opp_involutive; lia.
Qed.

Lemma axis_round_opp (v : float) :
  Binary64.axis_round (- v)%float = 3000 - Binary64.axis_round v.
Proof.
  unfold Binary64.axis_round. rewrite opp_spec, Zval_opp, signed400_opp.
  set (V := Binary64.signed400 (Binary64.Zval (Prim2SF v))).
  assert (Hsum : Binary64.sum1500 (- V) = 3000 * 2 ^ 42 - Binary64.sum1500 V).
  { unfold Binary64.sum1500.
    replace (- V + 1500 * 2 ^ 1074)
      with (3000 * 2 ^ 42 * 2 ^ 1032 - (V + 1500 * 2 ^ 1074)).
    - apply rne_reflect; reflexivity.
    - change (3000 * 2 ^ 42 * 2 ^ 1032) with (2 * (1500 * 2 ^ 1074)). lia. }
  rewrite Hsum. apply rne_reflect; reflexivity.
Qed.

(** X14: the mapping is symmetric about the neutral PWM 1500: for every
    float [v] in [-1, 1], [-v] is in [-1, 1] too and the PWM values
    computed for [v] and [-v] add up to 3000, in binary64 arithmetic and
    with the rounding of ties to even. *)
Theorem axis_mapping_symmetric (v : float) (s : vehicle) :
  in_unit_range v ->
  in_unit_range (- v)%float /\
  exists p q,
    input_pwm v s = (Return p, s, []) /\
    input_pwm (- v)%float s = (Return q, s, []) /\
    p + q = 3000.
Proof.
  intros Hv. pose proof (in_unit_range_opp v Hv) as Hv'.
  split; [ exact Hv' | ].
  exists (clamp (Binary64.axis_round v)), (clamp (Binary64.axis_round (- v)%float)).
  split; [ apply input_pwm_in_range, Hv | ].
  split; [ apply input_pwm_in_range, Hv' | ].
  rewrite axis_round_opp. unfold clamp. lia.
Qed.

Lemma axis_mapping_symmetric_witness :
  in_unit_range 0.375 /\
  in_unit_range (- 0.375)%float /\
  exists p q,
    input_pwm 0.375 (init true) = (Return p, init true, []) /\
    input_pwm (- 0.375)%float (init true) = (Return q, init true, []) /\
    p + q = 3000.
Proof.
  assert (H : in_unit_range 0.375) by (split; reflexivity).
  split; [ exact H | ].
  exact (axis_mapping_symmetric 0.375 (init true) H).
Defined.

(** The float [(k - 1500) / 400], computed in binary64. *)
Definition axis_for (k : Z) : float :=
  ((of_uint63 (Uint63Axioms.of_Z (k - 1100)) - 400) / 400)%float.

Definition hits (k : Z) : bool :=
  let v := axis_for k in
  ((-1 <=? v) && (v <=? 1))%float &&
  match Py.round (v * 400 + 1500)%float with
  | inr r => Z.min (Z.max r 1100) 1900 =? k
  | inl _ => false
  end.

Lemma hits_all :
  forallb hits (map (fun i => 1100 + Z.of_nat i) (seq 0 801)) = true.
Proof. vm_compute. reflexivity. Qed.

(** X15: the mapping skips no value: every integer PWM from 1100 to
    1900 is what [set_rc_inputs] computes for some float in [-1, 1]. *)
Theorem axis_mapping_onto (k : Z) (s : vehicle) :
  1100 <= k <= 1900 ->
  exists v, in_unit_range v /\ input_pwm v s = (Return k, s, []).
Proof.
  intros Hk. pose proof hits_all as Hall. rewrite forallb_forall in Hall.
  specialize (Hall k). assert (Hin : hits k = true).
  { apply Hall. apply in_map_iff. exists (Z.to_nat (k - 1100)).
    split; [ lia | ]. apply in_seq. lia. }
  exists (axis_for k). unfold hits in Hin. cbv zeta in Hin.
  apply andb_prop in Hin as [Hrange Hround].
  split; [ apply range_check, Hrange | ].
  unfold input_pwm. rewrite Hrange. cbn [negb].
  destruct (Py.round (axis_for k * 400 + 1500)%float) as [e | r];
    [ discriminate | ].
  apply Z.eqb_eq in Hround. rewrite Hround. reflexivity.
Qed.

Lemma axis_mapping_onto_witness :
  1100 <= 1234 <= 1900 /\
  exists v, in_unit_range v /\
            input_pwm v (init true) = (Return 1234, init true, []).
Proof.
  assert (H : 1100 <= 1234 <= 1900) by lia.
  split; [ exact H | exact (axis_mapping_onto 1234 (init true) H) ].
Defined.

(** * Properties of the video thread and of the stitching window *)

(** ** Stepping through the videos *)

Import VideoThread.

Lemma emit_capture_frames (rw : bool) (k : nat) (c : capture) :
  frames (fst (emit_capture rw k c)) = frames c.
Proof.
  unfold emit_capture, read.
  destruct rw; cbn [pos set_pos];
    match goal with |- context [if ?b then _ else _] => destruct b end;
    try reflexivity;
    match goal with |- context [if ?b then _ else _] => destruct b end;
    reflexivity.
Qed.

Lemma emit_from_frames (rw : bool) (cs : list capture) :
  forall k, map frames (fst (emit_from rw k cs)) = map frames cs.
Proof.
  induction cs as [| c cs IH]; intros k; [ reflexivity | ].
  cbn [emit_from fst map]. rewrite emit_capture_frames, IH. reflexivity.
Qed.

Lemma emit_from_lookup (rw : bool) (cs : list capture) :
  forall (k i : nat) (c : capture),
    cs !! i = Some c ->
    fst (emit_from rw k cs) !! i = Some (fst (emit_capture rw (k + i) c)) /\
    (forall f, In f (snd (emit_capture rw (k + i) c)) ->
               In f (snd (emit_from rw k cs))).
Proof.
  induction cs as [| c0 cs IH]; intros k i c Hi; [ discriminate | ].
  cbn [emit_from fst snd]. destruct i as [| i].
  - injection Hi as ->. rewrite Nat.add_0_r. split; [ reflexivity | ].
    intros f Hf. apply in_or_app. left. exact Hf.
  - cbn in Hi. destruct (IH (S k) i c Hi) as [H1 H2].
    replace (k + S i)%nat with (S k + i)%nat by lia.
    split; [ exact H1 | ]. intros f Hf. apply in_or_app. right. apply H2, Hf.
Qed.



(** X16: [next_frame] and [prev_frame] act only while the video is
    paused: while it plays they change nothing and emit nothing.  When
    paused they leave the three flags as they were (the rewind flag is
    put back) and move only the positions of the captures. *)
Theorem frame_stepping_only_when_paused (t : thread) :
  (_video_playing_flag t = true ->
   next_frame t = (t, []) /\ prev_frame t = (t, [])) /\
  (forall step, step = next_frame \/ step = prev_frame ->
     _thread_running_flag (fst (step t)) = _thread_running_flag t /\
     _video_playing_flag (fst (step t)) = _video_playing_flag t /\
     _rewind (fst (step t)) = _rewind t /\
     map frames (_captures (fst (step t))) = map frames (_captures t)).
Proof.
  split.
  - intros Hp. unfold next_frame, prev_frame. rewrite Hp. split; reflexivity.
  - intros step [-> | ->]; unfold next_frame, prev_frame;
      destruct (_video_playing_flag t) eqn:Hp; cbn [negb fst];
      unfold _emit_frames;
      cbn [fst set_rewind set_captures _captures _rewind
           _thread_running_flag _video_playing_flag];
      repeat split;
      first [ reflexivity | exact Hp | apply emit_from_frames ].
Qed.

(** X17: stepping back while paused.  A capture at position [p] with
    [0 <= p <= frames] and at least one frame shows the frame before the
    one shown last, [p - 2], and is left at position [p - 1]; at the
    beginning ([p < 2]) it shows frame 0 and is left at position 1, over
    and over. *)
Theorem prev_frame_steps_back (t : thread) (i : nat) (c : capture) :
  _video_playing_flag t = false ->
  _captures t !! i = Some c ->
  0 <= pos c <= frames c -> 1 <= frames c ->
  let shown := if 2 <=? pos c then pos c - 2 else 0 in
  _captures (fst (prev_frame t)) !! i
  = Some {| pos := shown + 1; frames := frames c |} /\
  In {| cv_img := shown; cam_index := i |} (snd (prev_frame t)).
Proof.
  intros Hp Hi Hpos Hfr shown.
  unfold prev_frame. rewrite Hp. cbn [negb fst snd].
  unfold _emit_frames. cbn [fst snd set_rewind set_captures _captures _rewind].
  destruct (emit_from_lookup true (_captures t) 0 i c Hi) as [H1 H2].
  cbn [Nat.add] in H1, H2.
  assert (Hcap : emit_capture true i c
                 = ({| pos := shown + 1; frames := frames c |},
                    [{| cv_img := shown; cam_index := i |}])).
  { unfold emit_capture, read. fold shown. cbn [pos set_pos frames].
    replace ((0 <=? shown) && (shown <? frames c)) with true; [ reflexivity | ].
    symmetry. apply andb_true_intro. subst shown.
    destruct (Z.leb_spec 2 (pos c)); split;
      try (apply Z.leb_le; lia); apply Z.ltb_lt; lia. }
  rewrite Hcap in H1, H2. split; [ exact H1 | ].
  apply H2. left. reflexivity.
Qed.

Lemma prev_frame_steps_back_witness :
  let t := {| _thread_running_flag := true; _video_playing_flag := false;
              _rewind := false;
              _captures := [{| pos := 5; frames := 90 |};
                            {| pos := 1; frames := 30 |}] |} in
  (_video_playing_flag t = false /\
   _captures t !! 1%nat = Some {| pos := 1; frames := 30 |} /\
   0 <= 1 <= 30 /\ 1 <= 30) /\
  _captures (fst (prev_frame t)) !! 1%nat = Some {| pos := 1; frames := 30 |} /\
  In {| cv_img := 0; cam_index := 1 |} (snd (prev_frame t)).
Proof.
  intros t. split; [ repeat split; lia | ].
  exact (prev_frame_steps_back t 1 {| pos := 1; frames := 30 |}
           eq_refl eq_refl ltac:(simpl; lia) ltac:(simpl; lia)).
Defined.

Lemma emit_back_and_forth (cs : list capture) :
  forall k,
    Forall (fun c => 1 <= pos c < frames c) cs ->
    fst (emit_from true k (fst (emit_from false k cs))) = cs /\
    snd (emit_from false k cs)
    = imap (fun j c => {| cv_img := pos c; cam_index := k + j |}) cs /\
    snd (emit_from true k (fst (emit_from false k cs)))
    = imap (fun j c => {| cv_img := pos c - 1; cam_index := k + j |}) cs.
Proof.
  induction cs as [| c cs IH]; intros k Hcs; [ repeat split | ].
  apply Forall_cons in Hcs as [Hc Hcs].
  destruct (IH (S k) Hcs) as (H1 & H2 & H3).
  assert (Hfw : emit_capture false k c
                = (set_pos (pos c + 1) c, [{| cv_img := pos c; cam_index := k |}])).
  { unfold emit_capture, read.
    replace ((0 <=? pos c) && (pos c <? frames c)) with true; [ reflexivity | ].
    symmetry. apply andb_true_intro. split; [ apply Z.leb_le | apply Z.ltb_lt ]; lia. }
  assert (Hbw : emit_capture true k (set_pos (pos c + 1) c)
                = (c, [{| cv_img := pos c - 1; cam_index := k |}])).
  { unfold emit_capture, read. cbn [pos set_pos frames].
    replace (2 <=? pos c + 1) with true by (symmetry; apply Z.leb_le; lia).
    replace (pos c + 1 - 2) with (pos c - 1) by lia.
    replace ((0 <=? pos c - 1) && (pos c - 1 <? frames c)) with true.
    - replace (pos c - 1 + 1) with (pos c) by lia. destruct c; reflexivity.
    - symmetry. apply andb_true_intro.
      split; [ apply Z.leb_le | apply Z.ltb_lt ]; lia. }
  cbn [emit_from fst snd]. rewrite Hfw. cbn [fst snd].
  rewrite Hbw. cbn [fst snd]. rewrite H1, H2, H3.
  cbn [imap app]. rewrite Nat.add_0_r.
  repeat split; f_equal; apply imap_ext; intros j c' _; cbn;
    f_equal; lia.
Qed.

(** X18: a step forward and a step back cancel.  While paused, with
    every capture at a position [p] with [1 <= p < frames], [next_frame]
    shows frame [p] of each video, the following [prev_frame] shows
    frame [p - 1], and the thread is back in the state it started from. *)
Theorem next_then_prev_frame (t : thread) :
  _video_playing_flag t = false ->
  Forall (fun c => 1 <= pos c < frames c) (_captures t) ->
  fst (prev_frame (fst (next_frame t))) = t /\
  snd (next_frame t)
  = imap (fun j c => {| cv_img := pos c; cam_index := j |}) (_captures t) /\
  snd (prev_frame (fst (next_frame t)))
  = imap (fun j c => {| cv_img := pos c - 1; cam_index := j |}) (_captures t).
Proof.
  intros Hp Hcs. destruct (emit_back_and_forth (_captures t) 0 Hcs) as (H1 & H2 & H3).
  unfold next_frame, prev_frame. rewrite Hp. cbn [negb fst snd].
  unfold _emit_frames.
  cbn [fst snd set_rewind set_captures _captures _rewind _video_playing_flag].
  rewrite Hp. cbn [negb fst snd]. rewrite H1, H2, H3.
  repeat split. destruct t as [r p w cs]. cbn in *. subst p. reflexivity.
Qed.

Lemma next_then_prev_frame_witness :
  let t := {| _thread_running_flag := true; _video_playing_flag := false;
              _rewind := true;
              _captures := [{| pos := 5; frames := 90 |};
                            {| pos := 1; frames := 30 |}] |} in
  (_video_playing_flag t = false /\
   Forall (fun c => 1 <= pos c < frames c) (_captures t)) /\
  fst (prev_frame (fst (next_frame t))) = t /\
  snd (next_frame t)
  = [{| cv_img := 5; cam_index := 0 |}; {| cv_img := 1; cam_index := 1 |}].
Proof.
  intros t.
  assert (H : Forall (fun c => 1 <= pos c < frames c) (_captures t)).
  { repeat (apply Forall_cons; split; [ simpl; lia | ]). apply Forall_nil_2. }
  split; [ split; [ reflexivity | exact H ] | ].
  destruct (next_then_prev_frame t eq_refl H) as (H1 & H2 & _).
  split; [ exact H1 | exact H2 ].
Defined.



(** ** Browsing the squares *)

Import MainWindow.

Lemma show_current_index (w : window) :
  image_index (snd (fst (show_current w))) = image_index w /\
  image_count (snd (fst (show_current w))) = image_count w.
Proof.
  unfold show_current. destruct (getitem (images w) (image_index w));
    [ | split; reflexivity ].
  destruct ((- image_count w <=? image_index w) && _); split; reflexivity.
Qed.

Lemma handle_index_bounds (i : input) (w : window) :
  0 <= image_index w < image_count w ->
  0 <= image_index (snd (fst (handle i w))) < image_count w /\
  image_count (snd (fst (handle i w))) = image_count w.
Proof.
  intros Hb. destruct i as [[| | | |] | x y];
    cbn [handle keyPressEvent mousePressEvent fst snd set_coords
         image_index image_count]; try (split; [ exact Hb | reflexivity ]).
  - destruct (Z.ltb_spec (image_index w) (image_count w - 1));
      [ | split; [ exact Hb | reflexivity ] ].
    destruct (show_current_index (set_index (image_index w + 1) w)) as [-> ->].
    cbn [set_index image_index image_count]. lia.
  - destruct (Z.ltb_spec 0 (image_index w));
      [ | split; [ exact Hb | reflexivity ] ].
    destruct (show_current_index (set_index (image_index w - 1) w)) as [-> ->].
    cbn [set_index image_index image_count]. lia.
Qed.

(** X20: starting with [0 <= image_index < len(image_list)], no sequence
    of key presses and mouse clicks takes the index out of that range,
    also when a handler raises; Right on the last image and Left on the
    first do nothing at all. *)
Theorem image_index_stays_in_range (w : window) :
  0 <= image_index w < image_count w ->
  (forall inputs,
      0 <= image_index (handle_all inputs w) < image_count w /\
      image_count (handle_all inputs w) = image_count w) /\
  (image_index w = image_count w - 1 ->
   keyPressEvent Key_Right w = (Done, w, [])) /\
  (image_index w = 0 -> keyPressEvent Key_Left w = (Done, w, [])).
Proof.
  intros Hb. split; [ | split ].
  - intros inputs. revert w Hb.
    induction inputs as [| i inputs IH]; intros w Hb; [ split; [ exact Hb | reflexivity ] | ].
    cbn [handle_all]. destruct (handle_index_bounds i w Hb) as [H1 H2].
    rewrite <- H2 in H1. destruct (IH _ H1) as [H3 H4].
    rewrite H2 in H3, H4. split; assumption.
  - intros Hlast. cbn [keyPressEvent].
    destruct (Z.ltb_spec (image_index w) (image_count w - 1)); [ lia | reflexivity ].
  - intros Hfirst. cbn [keyPressEvent].
    destruct (Z.ltb_spec 0 (image_index w)); [ lia | reflexivity ].
Qed.

Lemma image_index_stays_in_range_witness :
  let w := {| image_count := 3; images := [0; 1; 2]%nat; image_index := 0;
              transect_img := 0%nat; coords := [[]; []; []] |} in
  0 <= image_index w < image_count w /\
  image_index (handle_all [Press Key_Left; Press Key_Right; Click 4 5;
                           Press Key_Right; Press Key_Right; Press Key_R] w) = 2 /\
  keyPressEvent Key_Left w = (Done, w, []).
Proof.
  intros w.
  assert (H : 0 <= image_index w < image_count w) by (simpl; lia).
  split; [ exact H | ].
  split; [ reflexivity | ].
  exact (proj2 (proj2 (image_index_stays_in_range w H)) eq_refl).
Defined.

Lemma getitem_lookup {A} (l : list A) (i : Z) (a : A) :
  0 <= i -> l !! Z.to_nat i = Some a -> getitem l i = Some a.
Proof.
  intros Hi Hl. unfold getitem.
  apply lookup_lt_Some in Hl as Hlt.
  replace (0 <=? i) with true by (symmetry; apply Z.leb_le; lia).
  replace (i <? Z.of_nat (length l)) with true
    by (symmetry; apply Z.ltb_lt; lia).
  exact Hl.
Qed.

(** X21: Right and then Left comes back.  When the window shows image
    [i], not the last one, with [self.transect_img] being
    [stitcher.images[i]], pressing Right shows image [i + 1] and its
    object, and pressing Left then restores the window as it was. *)
Theorem right_then_left (w : window) (o o' : nat) :
  0 <= image_index w < image_count w - 1 ->
  images w !! Z.to_nat (image_index w) = Some o ->
  images w !! Z.to_nat (image_index w + 1) = Some o' ->
  transect_img w = o ->
  keyPressEvent Key_Right w
  = (Done, set_transect_img o' (set_index (image_index w + 1) w),
     [DisplayImage (image_index w + 1)]) /\
  keyPressEvent Key_Left (snd (fst (keyPressEvent Key_Right w)))
  = (Done, w, [DisplayImage (image_index w)]).
Proof.
  intros Hb Ho Ho' Halias.
  assert (Hr : keyPressEvent Key_Right w
               = (Done, set_transect_img o' (set_index (image_index w + 1) w),
                  [DisplayImage (image_index w + 1)])).
  { cbn [keyPressEvent].
    destruct (Z.ltb_spec (image_index w) (image_count w - 1)); [ | lia ].
    unfold show_current. cbn [set_index images image_index image_count].
    rewrite (getitem_lookup _ _ o') by (lia || assumption).
    replace (- image_count w <=? image_index w + 1) with true
      by (symmetry; apply Z.leb_le; lia).
    replace (image_index w + 1 <? image_count w) with true
      by (symmetry; apply Z.ltb_lt; lia).
    reflexivity. }
  split; [ exact Hr | ]. rewrite Hr. cbn [fst snd keyPressEvent].
  cbn [set_transect_img set_index image_index image_count images].
  destruct (Z.ltb_spec 0 (image_index w + 1)); [ | lia ].
  unfold show_current.
  cbn [set_transect_img set_index image_index image_count images coords
       transect_img].
  replace (image_index w + 1 - 1) with (image_index w) by lia.
  rewrite (getitem_lookup _ _ o) by (lia || assumption).
  replace (- image_count w <=? image_index w) with true
    by (symmetry; apply Z.leb_le; lia).
  replace (image_index w <? image_count w) with true
    by (symmetry; apply Z.ltb_lt; lia).
  cbn [andb]. subst o. destruct w; reflexivity.
Qed.

Lemma right_then_left_witness :
  let w := {| image_count := 3; images := [7; 8; 9]%nat; image_index := 1;
              transect_img := 8%nat; coords := [] |} in
  (0 <= image_index w < image_count w - 1 /\
   images w !! Z.to_nat (image_index w) = Some 8%nat /\
   images w !! Z.to_nat (image_index w + 1) = Some 9%nat /\
   transect_img w = 8%nat) /\
  keyPressEvent Key_Left (snd (fst (keyPressEvent Key_Right w)))
  = (Done, w, [DisplayImage 1]).
Proof.
  intros w.
  assert (H : 0 <= image_index w < image_count w - 1) by (simpl; lia).
  split; [ repeat split; simpl; lia | ].
  exact (proj2 (right_then_left w 8%nat 9%nat H eq_refl eq_refl eq_refl)).
Defined.

(** X22: a mouse click appends its point to the coords of the object
    shown, and the R key empties them; neither touches the coords of any
    other object, nor the index, nor which object is shown. *)
Theorem coords_of_shown_object_only (w : window) :
  (forall x y,
      let w' := snd (fst (mousePressEvent x y w)) in
      image_index w' = image_index w /\ transect_img w' = transect_img w /\
      (forall o, o <> transect_img w -> coords w' !! o = coords w !! o) /\
      (forall old, coords w !! transect_img w = Some old ->
                   coords w' !! transect_img w = Some (old ++ [(x, y)]))) /\
  (let w' := snd (fst (keyPressEvent Key_R w)) in
   image_index w' = image_index w /\ transect_img w' = transect_img w /\
   (forall o, o <> transect_img w -> coords w' !! o = coords w !! o) /\
   (forall old, coords w !! transect_img w = Some old ->
                coords w' !! transect_img w = Some [])).
Proof.
  split.
  - intros x y w'. subst w'.
    cbn [mousePressEvent fst snd set_coords image_index transect_img coords].
    repeat split.
    + intros o Hne. apply list_lookup_insert_ne. congruence.
    + intros old Hold. rewrite Hold. cbn [default].
      apply list_lookup_insert_eq. apply lookup_lt_Some in Hold. exact Hold.
  - cbn [keyPressEvent fst snd set_coords image_index transect_img coords].
    repeat split.
    + intros o Hne. apply list_lookup_insert_ne. congruence.
    + intros old Hold. apply list_lookup_insert_eq.
      apply lookup_lt_Some in Hold. exact Hold.
Qed.
